(** * TickerToCIK: a shallow embedding of [tickerToCIK.py] and [timer.py]

    The development follows the two source files.

    - [PyStr]: the few [str] and [re] operations the code calls.
    - [Timer]: the [Timer] class of [timer.py], over a logical clock.
    - [Fetch]: [get_CIK], over an explicit model of the remote endpoint.
    - [get_CIKs] and [_get_CIKs_multithread], over any lookup.
    - [Files]: [get_CIKs_file_to_file], over an explicit file system.

    Python text is modelled by [string]: a sequence of code points below 256.
    Exceptions are modelled by the [outcome] type; code that reads or changes
    the outside world is a function from the state of that world to an outcome
    and a new state. *)

From Stdlib Require Import ZArith NArith Ascii String.
From stdpp Require Import base list strings gmap.

Local Open Scope Z_scope.

(** ** Exceptions and outcomes *)

(** The exception classes that the modelled code can raise. *)
Inductive exn : Type :=
  | AssertionError      (* [assert conn.ok, ...] *)
  | RequestException    (* raised by [requests.get] on a transport failure *)
  | UnicodeDecodeError  (* raised by [bytes.decode] *)
  | AttributeError      (* access to a deleted attribute *)
  | TypeError
  | ValueError
  | FileNotFoundError.

(** What a call does: it returns a value or it raises. *)
Inductive outcome (A : Type) : Type :=
  | Return (a : A)
  | Raise (e : exn).
Arguments Return {A} a.
Arguments Raise {A} e.

Definition returns {A} (o : outcome A) : Prop := ∃ a, o = Return a.
Definition raises {A} (o : outcome A) : Prop := ∃ e, o = Raise e.

(** Code that runs against a world of type [W]. *)
Definition M (W A : Type) : Type := W → outcome A * W.

#[global] Instance M_ret {W} : MRet (M W) := λ A a w, (Return a, w).
#[global] Instance M_bind {W} : MBind (M W) := λ A B k m w,
  match m w with
  | (Return a, w') => k a w'
  | (Raise e, w') => (Raise e, w')
  end.

Definition throw {W A} (e : exn) : M W A := λ w, (Raise e, w).

(** [assert b]. *)
Definition assert_ {W} (b : bool) : M W unit :=
  if b then mret () else throw AssertionError.

(** ** The string operations of the source *)

Module PyStr.

Definition newline : ascii := "010"%char.

(** [c.isspace()] on a code point below 256. *)
Definition isspace (c : ascii) : bool :=
  let n := N_of_ascii c in
  ((9 <=? n) && (n <=? 13) || (28 <=? n) && (n <=? 32)
   || (n =? 133) || (n =? 160))%N.

Fixpoint lstrip (s : string) : string :=
  match s with
  | String c s' => if isspace c then lstrip s' else s
  | EmptyString => EmptyString
  end.

Definition rstrip (s : string) : string := String.rev (lstrip (String.rev s)).

(** [s.strip()] *)
Definition strip (s : string) : string := rstrip (lstrip s).

(** [s.replace("\n", "")] *)
Fixpoint replace_newline (s : string) : string :=
  match s with
  | String c s' =>
      if Ascii.eqb c newline then replace_newline s'
      else String c (replace_newline s')
  | EmptyString => EmptyString
  end.

(** The class [[0-9]]. *)
Definition isdigit09 (c : ascii) : bool :=
  let n := N_of_ascii c in ((48 <=? n) && (n <=? 57))%N.

(** The longest run of [[0-9]] at the head of [s], and what follows it. *)
Fixpoint span_digits (s : string) : string * string :=
  match s with
  | String c s' =>
      if isdigit09 c
      then let (ds, rest) := span_digits s' in (String c ds, rest)
      else (EmptyString, s)
  | EmptyString => (EmptyString, EmptyString)
  end.

Definition filings_literal : string := " (see all company filings)".

(** The pattern of [get_CIK] is a group of any number of [0-9], then the
    text of [filings_literal]. A match that starts at the head of [s]: the
    group and the length of the whole match. The repetition is greedy, and
    giving digits back never helps: the literal starts with a space. *)
Definition match_here (s : string) : option (string * nat) :=
  let (ds, rest) := span_digits s in
  if String.prefix filings_literal rest
  then Some (ds, (String.length ds + String.length filings_literal)%nat)
  else None.

(** [re.findall(pattern, s)]: the group of every match, leftmost first,
    matches not overlapping. [skip] counts the characters of the previous
    match that are still to be passed. *)
Fixpoint findall_from (s : string) (skip : nat) : list string :=
  match s with
  | EmptyString => []
  | String _ s' =>
      match skip with
      | S k => findall_from s' k
      | O =>
          match match_here s with
          | Some (ds, len) => ds :: findall_from s' (len - 1)
          | None => findall_from s' 0
          end
      end
  end.

Definition findall (s : string) : list string := findall_from s 0.

(** [text.split(sep)] for a separator that is not empty. *)
Fixpoint split_from (sep s cur : string) (skip : nat) : list string :=
  match s with
  | EmptyString => [cur]
  | String c s' =>
      match skip with
      | S k => split_from sep s' cur k
      | O =>
          if String.prefix sep s
          then cur :: split_from sep s' EmptyString (String.length sep - 1)
          else split_from sep s' (cur +:+ String c EmptyString) 0
      end
  end.

(** [text.split(sep)]: an empty separator raises [ValueError]. *)
Definition split (text sep : string) : outcome (list string) :=
  match sep with
  | EmptyString => Raise ValueError
  | _ => Return (split_from sep text EmptyString 0)
  end.

End PyStr.

(** ** timer.py *)

Module Timer.

(** The attribute [_thread] of a [Timer] object: bound to [None], bound to a
    started thread that sleeps until [deadline] (milliseconds on the logical
    clock), or deleted by [del self._thread]. *)
Inductive attr : Type :=
  | IsNone
  | IsThread (deadline : N)
  | Deleted.

Record t : Type := { _thread : attr }.

(** [Timer()] *)
Definition init : t := {| _thread := IsNone |}.

(** [self.start(seconds)], called at time [now]. *)
Definition start (seconds : N) (now : N) (self : t) : t :=
  {| _thread := IsThread (now + 1000 * seconds) |}.

(** [self.wait()], called at time [now]: the object afterwards and the time
    at which the call returns. Reading a deleted attribute raises. *)
Definition wait (now : N) (self : t) : outcome (t * N) :=
  match _thread self with
  | Deleted => Raise AttributeError
  | IsThread deadline => Return ({| _thread := Deleted |}, N.max now deadline)
  | IsNone => Return (self, now)
  end.

(** [self.startAndWait(seconds)] *)
Definition startAndWait (seconds : N) (now : N) (self : t) : outcome (t * N) :=
  wait now (start seconds now self).

End Timer.

(** ** tickerToCIK.py: the lookup of one ticker *)

Module Fetch.

(** What the code reads of a [requests] response: [conn.ok], and
    [conn.content.decode()], which is [None] here when the bytes of the body
    are not valid UTF-8. *)
Record Response : Type := { ok : bool; content : option string }.

(** The remote endpoint: what [get(url)] does, given the requests sent so
    far. It returns a response, or raises on a transport failure. *)
Definition Net : Type := list string → string → outcome Response.

(** The world of [get_CIK] is the list of the requests sent so far. *)
Definition get (net : Net) (url : string) : M (list string) Response :=
  λ log, (net log url, log ++ [url]).

Definition decode (r : Response) : M (list string) string :=
  match content r with
  | Some text => mret text
  | None => throw UnicodeDecodeError
  end.

Definition url_of (ticker : string) : string :=
  "https://www.sec.gov/cgi-bin/browse-edgar?CIK="
  +:+ PyStr.replace_newline (PyStr.strip ticker)
  +:+ "&owner=exclude&action=getcompany".

(** The [try] block: the first match, without its newlines; [None] when
    indexing the list of matches fails. *)
Definition extract (data : string) : option string :=
  match PyStr.findall data with
  | m :: _ => Some (PyStr.replace_newline m)
  | [] => None
  end.

Definition get_CIK (net : Net) (ticker : string) : M (list string) (option string) :=
  let url := url_of ticker in
  conn ← get net url;
  r ← get net url;
  data ← decode r;
  _ ← assert_ (ok conn);
  mret (extract data).

End Fetch.

(** ** tickerToCIK.py: the batch *)

(** A Python [dict] from tickers to CIKs, in insertion order. *)
Definition dict : Type := list (string * option string).

(** [d[k] = v]: a key that is present keeps its place. *)
Fixpoint setitem (k : string) (v : option string) (d : dict) : dict :=
  match d with
  | [] => [(k, v)]
  | (k', v') :: d' =>
      if decide (k' = k) then (k, v) :: d' else (k', v') :: setitem k v d'
  end.

(** [d.get(k)] *)
Fixpoint getitem (k : string) (d : dict) : option (option string) :=
  match d with
  | [] => None
  | (k', v') :: d' => if decide (k' = k) then Some v' else getitem k d'
  end.

Definition keys (d : dict) : list string := d.*1.

(** The arguments that a caller can pass; the items of a list are strings. *)
Inductive pyobj : Type :=
  | PyNone
  | PyBool (b : bool)
  | PyInt (n : Z)
  | PyStr (s : string)
  | PyList (l : list string).

Fixpoint chars (s : string) : list string :=
  match s with
  | EmptyString => []
  | String c s' => String c EmptyString :: chars s'
  end.

(** The items that iterating over an object yields; [None] for an object with
    neither [__iter__] nor [__next__]. *)
Definition iterate (o : pyobj) : option (list string) :=
  match o with
  | PyList l => Some l
  | PyStr s => Some (chars s)
  | PyNone | PyBool _ | PyInt _ => None
  end.

(** What the main thread of [_get_CIKs_multithread] does, with the time on the
    logical clock (milliseconds). *)
Inductive event : Type :=
  | EStart (at_ : N)                              (* [timer.start(1)] *)
  | EWait (from to : N)                           (* [timer.wait()] *)
  | ESpawn (pos : nat) (ticker : string) (at_ : N). (* [t.start()] *)

(** The threads started, in the order of their start. *)
Fixpoint spawned (evs : list event) : list (nat * string) :=
  match evs with
  | [] => []
  | ESpawn pos ticker _ :: evs' => (pos, ticker) :: spawned evs'
  | _ :: evs' => spawned evs'
  end.

(** What the code does not decide: the time at which the batch starts, the
    time that starting the thread of each position takes, and the order in
    which the worker threads store their result. At each step [picks] names,
    among the threads that have not stored yet, the next one to do so. *)
Record Sched : Type := {
  start_time : N;
  elapsed : nat → N;
  picks : list nat
}.

Fixpoint completion_order {A} (picks : list nat) (pending : list A) (n : nat) : list A :=
  match n with
  | O => []
  | S n' =>
      let c := (hd 0 picks `mod` length pending)%nat in
      match pending !! c with
      | Some x => x :: completion_order (tl picks) (delete c pending) n'
      | None => []
      end
  end.

Section Dispatch.

(** The local constant of [_get_CIKs_multithread]; [5] in the source. It is
    a variable here, so that the loop can be studied at other values. *)
Variable numberOfConnectionsPerSecond : Z.
Variable sched : Sched.

(** The body of the [for] loop from position [pos] on: the events of the
    main thread. *)
Fixpoint main_loop (items : list (nat * string))
    (timer : Timer.t) (i : Z) (now : N) : outcome (list event) :=
  match items with
  | [] => Return []
  | (pos, ticker) :: rest =>
      let gate :=
        if decide (Z.of_nat pos - i >= numberOfConnectionsPerSecond) then
          match Timer.wait now timer with
          | Return (timer', now') =>
              Return (Timer.start 1 now' timer', Z.of_nat pos, now',
                      [EWait now now'; EStart now'])
          | Raise e => Raise e
          end
        else Return (timer, i, now, [])
      in
      match gate with
      | Return (timer', i', now', evs) =>
          match main_loop rest timer' i' (now' + elapsed sched pos)%N with
          | Return evs' => Return (evs ++ ESpawn pos ticker now' :: evs')
          | Raise e => Raise e
          end
      | Raise e => Raise e
      end
  end.

(** From [timer = Timer()] to the end of the first loop. *)
Definition dispatch (tickers : list string) : outcome (list event) :=
  let now := start_time sched in
  match main_loop (imap pair tickers) (Timer.start 1 now Timer.init) 0 now with
  | Return evs => Return (EStart now :: evs)
  | Raise e => Raise e
  end.

End Dispatch.

Section Batch.

Context {W : Type}.

(** The lookup that the batch calls for each ticker; [get_CIK] in the
    source. *)
Variable fetch : string → M W (option string).

(** The loop of the branch without threads. [progressbar] yields the items of
    its argument. *)
Fixpoint sequential_loop (tickers : list string) (output : dict) : M W dict :=
  match tickers with
  | [] => mret output
  | ticker :: rest =>
      cik ← fetch ticker;
      sequential_loop rest (setitem ticker cik output)
  end.

(** The worker threads, in the order in which they store: each calls the
    lookup and stores what it returns. A thread whose lookup raises ends
    there and stores nothing. A lookup is one step on the world here; how the
    requests of different threads interleave is left to the world. *)
Fixpoint run_threads (order : list (nat * string)) (output : dict) (w : W) : dict * W :=
  match order with
  | [] => (output, w)
  | (_, ticker) :: rest =>
      match fetch ticker w with
      | (Return cik, w') => run_threads rest (setitem ticker cik output) w'
      | (Raise _, w') => run_threads rest output w'
      end
  end.

Definition multithread_with (quota : Z) (sched : Sched) (tickers : list string) : M W dict :=
  match dispatch quota sched tickers with
  | Return evs =>
      let threads := spawned evs in
      λ w, let (output, w') :=
             run_threads (completion_order (picks sched) threads (length threads)) [] w
           in (Return output, w')
  | Raise e => throw e
  end.

Definition _get_CIKs_multithread : Sched → list string → M W dict :=
  multithread_with 5.

Definition get_CIKs (sched : Sched) (tickers enableMultiThreading : pyobj) : M W dict :=
  match iterate tickers with
  | None => throw TypeError
  | Some items =>
      match enableMultiThreading with
      | PyBool b =>
          if negb b then sequential_loop items []
          else _get_CIKs_multithread sched items
      | _ => throw ValueError
      end
  end.

End Batch.

(** ** tickerToCIK.py: from file to file *)

Module Files.

(** The files that exist, with their text. *)
Abbreviation FS := (gmap string string).

(** ["%s" % cik] *)
Definition str_of (cik : option string) : string :=
  match cik with
  | Some s => s
  | None => "None"
  end.

(** The loop of [out.write("%s,%s\n" % (ticker, cik))]: the text of the
    file after the items are written behind [written]. *)
Fixpoint write_items (items : dict) (written : string) : string :=
  match items with
  | [] => written
  | (ticker, cik) :: rest =>
      write_items rest
        (written +:+ (ticker +:+ "," +:+ str_of cik +:+ String PyStr.newline EmptyString))
  end.

Section WithFetch.

Context {W : Type}.
Variable fetch : string → M W (option string).

(** [open(outputFilePath, 'w')] creates the file or empties it, before the
    ticker file is opened. A file object that is never closed leaves the
    file empty. *)
Definition get_CIKs_file_to_file (sched : Sched)
    (tickerFilePath outputFilePath delim : string)
    (enableMultiThreading : pyobj) : M (FS * W) unit :=
  λ '(fs, w),
    let fs1 := <[outputFilePath := EmptyString]> fs in
    match fs1 !! tickerFilePath with
    | None => (Raise FileNotFoundError, (fs1, w))
    | Some text =>
        match PyStr.split text delim with
        | Raise e => (Raise e, (fs1, w))
        | Return tickers =>
            match get_CIKs fetch sched (PyList tickers) enableMultiThreading w with
            | (Return mapped, w') =>
                (Return (), (<[outputFilePath := write_items mapped EmptyString]> fs1, w'))
            | (Raise e, w') => (Raise e, (fs1, w'))
            end
        end
    end.

End WithFetch.

End Files.

(** ** Notions used to state the properties *)

(** The discipline of the admission gate, read off a run of the main thread:
    [gated c t evs] holds when [evs] can follow [c] admissions in a window
    opened at time [t]. Below the quota of 5 the next thread starts at once.
    At the quota, the main thread first waits, to a time that is at least one
    second after [t], opens a window at that time, and starts the thread that
    was waiting, which is the first admission of the new window. *)
Inductive gated : nat → N → list event → Prop :=
  | gated_done c t : (c ≤ 5)%nat → gated c t []
  | gated_admit c t pos ticker at_ evs :
      (c < 5)%nat →
      gated (S c) t evs →
      gated c t (ESpawn pos ticker at_ :: evs)
  | gated_reset t from to pos ticker evs :
      (t + 1000 ≤ to)%N →
      gated 1 to evs →
      gated 5 t (EWait from to :: EStart to :: ESpawn pos ticker to :: evs).

(** The positions admitted before the next window opens. *)
Fixpoint head_spawns (evs : list event) : list nat :=
  match evs with
  | [] => []
  | ESpawn pos _ _ :: evs' => pos :: head_spawns evs'
  | EWait _ _ :: evs' => head_spawns evs'
  | EStart _ :: _ => []
  end.

(** The windows of a run: the time at which each opens and the positions
    admitted while it is the current one. *)
Fixpoint windows (evs : list event) : list (N * list nat) :=
  match evs with
  | [] => []
  | EStart t :: evs' => (t, head_spawns evs') :: windows evs'
  | _ :: evs' => windows evs'
  end.

(** The number of newline characters of a text. *)
Fixpoint count_newlines (s : string) : nat :=
  match s with
  | EmptyString => 0%nat
  | String c s' => ((if Ascii.eqb c PyStr.newline then 1 else 0) + count_newlines s')%nat
  end.

(** A lookup that always returns, as a lookup of the batch. *)
Definition total {W} (f : string → W → option string * W) : string → M W (option string) :=
  λ ticker w, let (cik, w') := f ticker w in (Return cik, w').

(** An endpoint that answers every request with a success status and a body
    that decodes. *)
Definition answers (net : Fetch.Net) : Prop :=
  ∀ log url, ∃ r, net log url = Return r
                  ∧ Fetch.ok r = true ∧ is_Some (Fetch.content r).

(** What [get_CIK] does against such an endpoint. *)
Definition get_CIK_answered (net : Fetch.Net) (ticker : string) (log : list string)
    : option string * list string :=
  let url := Fetch.url_of ticker in
  (match net (log ++ [url]) url with
   | Return r =>
       match Fetch.content r with
       | Some text => Fetch.extract text
       | None => None
       end
   | Raise _ => None
   end,
   log ++ [url; url]).

(** The same lookup, keeping the list of its calls with what each returned. *)
Definition recorded {W} (f : string → W → option string * W)
    : string → W * list (string * option string)
      → option string * (W * list (string * option string)) :=
  λ ticker '(w, calls), let (cik, w') := f ticker w in (cik, (w', calls ++ [(ticker, cik)])).

(** What a loop that stores every lookup does, for a lookup that always
    returns. *)
Fixpoint store_each {W} (f : string → W → option string * W)
    (order : list string) (d : dict) (w : W) : dict * W :=
  match order with
  | [] => (d, w)
  | ticker :: rest => let (cik, w') := f ticker w in store_each f rest (setitem ticker cik d) w'
  end.

(** ** Notions for the further properties *)

(** One call on a [Timer] object. *)
Inductive timer_call : Type :=
  | CallStart (seconds : N)
  | CallWait
  | CallStartAndWait (seconds : N).

(** A sequence of calls on one [Timer] object, each made when the previous
    one returns. *)
Fixpoint run_calls (calls : list timer_call) (now : N) (self : Timer.t)
    : outcome (Timer.t * N) :=
  match calls with
  | [] => Return (self, now)
  | CallStart seconds :: rest => run_calls rest now (Timer.start seconds now self)
  | CallWait :: rest =>
      match Timer.wait now self with
      | Return (self', now') => run_calls rest now' self'
      | Raise e => Raise e
      end
  | CallStartAndWait seconds :: rest =>
      match Timer.startAndWait seconds now self with
      | Return (self', now') => run_calls rest now' self'
      | Raise e => Raise e
      end
  end.

(** The sequences of calls that wait for a timer that was already waited
    for: [wait] twice in a row after a [start], or [wait] right after
    [startAndWait]. *)
Inductive misused : list timer_call → Prop :=
  | misused_wait_twice seconds rest :
      misused (CallStart seconds :: CallWait :: CallWait :: rest)
  | misused_wait_after_startAndWait seconds rest :
      misused (CallStartAndWait seconds :: CallWait :: rest)
  | misused_later call rest : misused rest → misused (call :: rest).

(** What makes the calls raise from a given state of the object, besides a
    misuse inside the sequence. *)
Definition bad_prefix (self : Timer.t) (calls : list timer_call) : Prop :=
  match Timer._thread self with
  | Timer.Deleted => ∃ rest, calls = CallWait :: rest
  | Timer.IsThread _ => ∃ rest, calls = CallWait :: CallWait :: rest
  | Timer.IsNone => False
  end.

(** The time that starting the threads of the positions [p], ..., [p + k - 1]
    takes. *)
Fixpoint total_elapsed (e : nat → N) (p k : nat) : N :=
  match k with
  | O => 0%N
  | S k' => (e p + total_elapsed e (S p) k')%N
  end.

(** The events of the loop of [_get_CIKs_multithread] from position [p] on,
    as a relation: [c] threads were started in the current window, which
    opened at [t], and the time is [now]. [e] is the time that each start
    takes. *)
Inductive trace_from (e : nat → N) : nat → nat → N → N → list event → Prop :=
  | trace_done p c now t : trace_from e p c now t []
  | trace_admit p c now t ticker evs :
      (c < 5)%nat →
      trace_from e (S p) (S c) (now + e p)%N t evs →
      trace_from e p c now t (ESpawn p ticker now :: evs)
  | trace_reset p now t ticker evs :
      let now' := N.max now (t + 1000) in
      trace_from e (S p) 1 (now' + e p)%N now' evs →
      trace_from e p 5 now t
        (EWait now now' :: EStart now' :: ESpawn p ticker now' :: evs).

(** [pat] occurs in [s]. *)
Definition occurs (pat s : string) : Prop := ∃ a b, s = a +:+ pat +:+ b.

(** Every character of [s] is one of [0-9]. *)
Fixpoint all_digits (s : string) : bool :=
  match s with
  | EmptyString => true
  | String c s' => PyStr.isdigit09 c && all_digits s'
  end.

(** The tickers of a list in the order of their first occurrence; [seen]
    holds the ones met so far. *)
Fixpoint first_occurrences (seen l : list string) : list string :=
  match l with
  | [] => []
  | x :: l' =>
      if decide (x ∈ seen) then first_occurrences seen l'
      else x :: first_occurrences (seen ++ [x]) l'
  end.

(** What the last of the recorded calls for [k] returned. *)
Fixpoint last_call (k : string) (calls : list (string * option string))
    : option (option string) :=
  match calls with
  | [] => None
  | (k', v) :: rest =>
      match last_call k rest with
      | Some v' => Some v'
      | None => if decide (k' = k) then Some v else None
      end
  end.

(** Every character of [s] is whitespace. *)
Fixpoint all_space (s : string) : bool :=
  match s with
  | EmptyString => true
  | String c s' => PyStr.isspace c && all_space s'
  end.

(** [s] does not start with whitespace. *)
Definition no_space_at_head (s : string) : bool :=
  match s with
  | EmptyString => true
  | String c _ => negb (PyStr.isspace c)
  end.

(** The number of [timer.wait()] calls and of [timer.start(1)] calls among
    the events of the main thread. *)
Fixpoint count_waits (evs : list event) : nat :=
  match evs with
  | [] => 0%nat
  | EWait _ _ :: evs' => S (count_waits evs')
  | _ :: evs' => count_waits evs'
  end.

Fixpoint count_starts (evs : list event) : nat :=
  match evs with
  | [] => 0%nat
  | EStart _ :: evs' => S (count_starts evs')
  | _ :: evs' => count_starts evs'
  end.


(** The addresses that the lookups of a list of tickers request, two for each
    lookup. *)
Definition requests_of (order : list string) : list string :=
  order ≫= λ ticker, [Fetch.url_of ticker; Fetch.url_of ticker].

(** ** Sample inputs *)

Module Sample.

Definition nl : string := String PyStr.newline EmptyString.

(** A batch that starts at time 0, takes 10 ms to start each thread, and
    whose second thread is the first to store. *)
Definition sched : Sched :=
  {| start_time := 0; elapsed := λ _, 10%N; picks := [1; 0; 2]%nat |}.

(** An endpoint that answers every request with the page of a company. *)
Definition net_page : Fetch.Net := λ _ _,
  Return {| Fetch.ok := true;
            Fetch.content := Some "<span>CIK#: 0000320193 (see all company filings)</span>" |}.

(** An endpoint that answers every request, without a CIK in the page. *)
Definition net_no_match : Fetch.Net := λ _ _,
  Return {| Fetch.ok := true; Fetch.content := Some "<h1>No matching Ticker Symbol.</h1>" |}.

(** An endpoint that refuses every request with an error status. *)
Definition net_denied : Fetch.Net := λ _ _,
  Return {| Fetch.ok := false; Fetch.content := Some "Request Rate Threshold Exceeded" |}.

(** An endpoint that cannot be reached. *)
Definition net_down : Fetch.Net := λ _ _, Raise RequestException.

(** A lookup that needs no network. *)
Definition stub (ticker : string) : option string :=
  if decide (ticker = "AAPL") then Some "320193"
  else if decide (ticker = "MSFT") then Some "789019"
  else None.

Definition stub_fetch (ticker : string) (w : unit) : option string * unit :=
  (stub ticker, w).

Definition files : Files.FS :=
  {[ "tickers.txt" := "AAPL" +:+ nl +:+ "ZZZZ"; "ciks.csv" := "stale" ]}.

End Sample.

(** ** The timer *)

Section TimerFacts.

Lemma start_not_deleted seconds now self :
  Timer._thread (Timer.start seconds now self) ≠ Timer.Deleted.
Proof. done. Qed.


Lemma wait_joined now now0 seconds self :
  Timer.wait now (Timer.start seconds now0 self)
  = Return ({| Timer._thread := Timer.Deleted |}, N.max now (now0 + 1000 * seconds)%N).
Proof. reflexivity. Qed.

End TimerFacts.

(** C10. [wait] on a timer that was never started returns at once, at the time
    of the call and with the timer unchanged. After a [wait] that joined a
    started timer, a second [wait] with no [start] in between does not return:
    it raises [AttributeError], because the first one deleted [_thread]. *)
Theorem wait_unstarted_and_wait_twice :
  (∀ now, Timer.wait now Timer.init = Return (Timer.init, now)) ∧
  (∀ seconds t0 t1 t2 self,
      ∃ self' t1',
        Timer.wait t1 (Timer.start seconds t0 self) = Return (self', t1') ∧
        (t0 + 1000 * seconds ≤ t1')%N ∧
        Timer.wait t2 self' = Raise AttributeError).
Proof.
  split; [done|].
  intros seconds t0 t1 t2 self. eexists _, _. rewrite wait_joined.
  split; [reflexivity|]. split; [lia | reflexivity].
Qed.

(** ** The main thread of the threaded batch *)

Section DispatchFacts.

Variable sched : Sched.

Lemma imap_shift {A B} (f : nat → A → B) (p : nat) (l : list A) :
  imap ((λ k, f (p + k)%nat) ∘ S) l = imap (λ k, f (S p + k)%nat) l.
Proof. apply imap_ext. intros k x _. simpl. f_equal. lia. Qed.



(** The loop with the quota of the source, started in the middle of a
    window: [c] threads were admitted since the window opened at [t]. *)
Lemma main_loop_gated tickers : ∀ (p c : nat) (i : Z) (now t : N),
  Z.of_nat p - i = Z.of_nat c →
  (c ≤ 5)%nat →
  ∃ evs,
    main_loop 5 sched (imap (λ k, pair (p + k)%nat) tickers)
      {| Timer._thread := Timer.IsThread (t + 1000) |} i now = Return evs
    ∧ gated c t evs
    ∧ spawned evs = imap (λ k, pair (p + k)%nat) tickers.
Proof.
  induction tickers as [|ticker rest IH]; intros p c i now t Hc Hle.
  - eexists. split; [reflexivity|]. split; [by constructor | reflexivity].
  - rewrite imap_cons, imap_shift, Nat.add_0_r. simpl.
    case_decide as Hfull.
    + assert (c = 5%nat) as -> by lia.
      set (now' := N.max now (t + 1000)).
      destruct (IH (S p) 1%nat (Z.of_nat p) (now' + elapsed sched p)%N now')
        as (evs & Hrun & Hg & Hs); [lia | lia |].
      unfold Timer.start. simpl.
      replace (now' + 1000 * 1)%N with (now' + 1000)%N by lia.
      simpl in Hrun, Hs. rewrite Hrun. eexists. split; [reflexivity|]. split.
      * simpl. constructor; [subst now'; lia | done].
      * simpl. by rewrite Hs.
    + destruct (IH (S p) (S c) i (now + elapsed sched p)%N t)
        as (evs & Hrun & Hg & Hs); [lia | lia |].
      simpl in Hrun, Hs. rewrite Hrun. eexists. split; [reflexivity|]. split.
      * simpl. constructor; [lia | done].
      * simpl. by rewrite Hs.
Qed.

Lemma dispatch_gated tickers :
  ∃ evs,
    dispatch 5 sched tickers = Return (EStart (start_time sched) :: evs)
    ∧ gated 0 (start_time sched) evs
    ∧ spawned evs = imap pair tickers.
Proof.
  destruct (main_loop_gated tickers 0 0 0 (start_time sched) (start_time sched))
    as (evs & Hrun & Hg & Hs); [lia | lia |].
  exists evs. unfold dispatch, Timer.start, Timer.init.
  replace (start_time sched + 1000 * 1)%N with (start_time sched + 1000)%N by lia.
  change (imap pair tickers) with (imap (λ k, pair (0 + k)%nat) tickers).
  by rewrite Hrun.
Qed.

End DispatchFacts.

(** What the discipline gives for the windows of a run. *)
Lemma gated_head_spawns c t evs :
  gated c t evs → (c + length (head_spawns evs) ≤ 5)%nat.
Proof. induction 1; simpl; lia. Qed.

Lemma gated_windows_bound c t evs :
  gated c t evs → Forall (λ w, (length w.2 ≤ 5)%nat) (windows evs).
Proof.
  induction 1 as [| |t from to pos ticker evs Hto Hg IH]; simpl; try done.
  constructor; [|done]. simpl. apply gated_head_spawns in Hg. lia.
Qed.

(** A window that is followed by another one is full, and the next one opens
    at least a second later. *)
Lemma gated_next_window c t evs :
  gated c t evs →
  ∀ w, head (windows evs) = Some w →
       (c + length (head_spawns evs) = 5)%nat ∧ (t + 1000 ≤ w.1)%N.
Proof.
  induction 1 as [|c t pos ticker at_ evs Hc Hg IH|]; simpl; intros w Hw.
  - done.
  - destruct (IH w Hw). lia.
  - injection Hw as <-. simpl. lia.
Qed.

Lemma gated_windows_chain c t evs :
  gated c t evs →
  ∀ j w w', windows evs !! j = Some w → windows evs !! S j = Some w' →
            length w.2 = 5%nat ∧ (w.1 + 1000 ≤ w'.1)%N.
Proof.
  induction 1 as [|c t pos ticker at_ evs Hc Hg IH|t from to pos ticker evs Hto Hg IH];
    simpl; intros j w w' Hj HSj.
  - done.
  - eauto.
  - destruct j as [|j]; [|by eauto].
    injection Hj as <-. simpl in *.
    destruct (gated_next_window _ _ _ Hg w') as [Hfull Hnext].
    + by destruct (windows evs).
    + simpl. lia.
Qed.

(** Every admission belongs to one window. *)
Lemma spawns_by_window evs :
  head_spawns evs ++ concat (windows evs).*2 = (spawned evs).*1.
Proof.
  induction evs as [|[t|from to|pos ticker at_] evs IH]; csimpl; try done.
  by f_equal.
Qed.

Lemma imap_pair_fst {A} (l : list A) : (imap pair l).*1 = seq 0 (length l).
Proof.
  rewrite fmap_imap.
  rewrite (imap_ext _ (λ j _, j)) by done.
  by rewrite imap_seq_0, list_fmap_id.
Qed.

Lemma imap_pair_snd {A} (l : list A) : (imap pair l).*2 = l.
Proof.
  rewrite fmap_imap.
  rewrite (imap_ext _ (const id)) by done.
  by rewrite imap_const, list_fmap_id.
Qed.

(** C3. The main thread of the threaded batch, for every list of tickers and
    every timing: it follows the discipline [gated] from an empty window
    opened when the batch starts (a thread starts at once while fewer than 5
    were admitted in the current window; after 5, the next one first waits to
    a time at least one second after the window opened, opens a window then,
    and is the first admission of that window), and it starts one thread for
    each ticker. So every window holds at most 5 admissions, the windows hold
    the positions in order, and a window that is followed by another one
    holds exactly 5 and is at least a second older. *)
Theorem admission_windows (sched : Sched) (tickers : list string) :
  ∃ evs,
    dispatch 5 sched tickers = Return (EStart (start_time sched) :: evs)
    ∧ gated 0 (start_time sched) evs
    ∧ spawned evs = imap pair tickers
    ∧ let ws := windows (EStart (start_time sched) :: evs) in
      Forall (λ w, (length w.2 ≤ 5)%nat) ws
      ∧ concat ws.*2 = seq 0 (length tickers)
      ∧ ∀ j w w', ws !! j = Some w → ws !! S j = Some w' →
                  length w.2 = 5%nat ∧ (w.1 + 1000 ≤ w'.1)%N.
Proof.
  destruct (dispatch_gated sched tickers) as (evs & Hrun & Hg & Hs).
  exists evs. split; [done|]. split; [done|]. split; [done|].
  simpl. split; [|split].
  - constructor.
    + simpl. apply gated_head_spawns in Hg. lia.
    + by eapply gated_windows_bound.
  - by rewrite spawns_by_window, Hs, imap_pair_fst.
  - intros [|j] w w' Hj HSj; simpl in *.
    + injection Hj as <-. simpl.
      destruct (gated_next_window _ _ _ Hg w') as [Hfull Hnext].
      * by destruct (windows evs).
      * done.
    + by eapply gated_windows_chain.
Qed.

Lemma admission_windows_witness :
  ∃ evs w w',
    dispatch 5 Sample.sched
      ["A"; "B"; "C"; "D"; "E"; "F"; "G"; "H"; "I"; "J"; "K"; "L"]
    = Return (EStart 0 :: evs)
    ∧ windows (EStart 0 :: evs) !! 0%nat = Some w
    ∧ windows (EStart 0 :: evs) !! 1%nat = Some w'
    ∧ length w.2 = 5%nat
    ∧ (w.1 + 1000 ≤ w'.1)%N.
Proof.
  destruct (admission_windows Sample.sched
              ["A"; "B"; "C"; "D"; "E"; "F"; "G"; "H"; "I"; "J"; "K"; "L"])
    as (evs & Hrun & _ & _ & _ & _ & Hchain).
  vm_compute in Hrun. injection Hrun as <-.
  eexists _, (0%N, [0; 1; 2; 3; 4]%nat), (1000%N, [5; 6; 7; 8; 9]%nat).
  split; [reflexivity|]. split; [reflexivity|]. split; [reflexivity|].
  apply (Hchain 0%nat); reflexivity.
Defined.


(** ** The dictionary *)

Section DictFacts.

Implicit Types (k : string) (v : option string) (d : dict).

Lemma elem_of_keys_setitem k k' v d :
  k' ∈ keys (setitem k v d) ↔ k' = k ∨ k' ∈ keys d.
Proof.
  unfold keys. induction d as [|[k0 v0] d IH]; csimpl.
  - rewrite elem_of_cons. tauto.
  - case_decide; csimpl; rewrite !elem_of_cons.
    + subst. tauto.
    + rewrite IH. tauto.
Qed.

Lemma NoDup_keys_setitem k v d : NoDup (keys d) → NoDup (keys (setitem k v d)).
Proof.
  unfold keys. induction d as [|[k0 v0] d IH]; csimpl; intros Hnd.
  - apply NoDup_singleton.
  - apply NoDup_cons in Hnd as [Hk0 Hnd].
    case_decide as Heq; csimpl.
    + subst. by apply NoDup_cons.
    + apply NoDup_cons. split; [|by apply IH].
      intros Hin. apply (elem_of_keys_setitem k k0 v d) in Hin as [?|?];
        [congruence | done].
Qed.

Lemma getitem_setitem k k' v d :
  getitem k' (setitem k v d) = if decide (k = k') then Some v else getitem k' d.
Proof.
  induction d as [|[k0 v0] d IH]; simpl.
  - repeat case_decide; congruence.
  - repeat (case_decide; simpl); congruence.
Qed.

Lemma getitem_Some_keys k v d : getitem k d = Some v → k ∈ keys d.
Proof.
  unfold keys. induction d as [|[k0 v0] d IH]; csimpl; [done|].
  rewrite elem_of_cons. case_decide; [by left | right; by apply IH].
Qed.

Lemma keys_getitem k d : k ∈ keys d → is_Some (getitem k d).
Proof.
  unfold keys. induction d as [|[k0 v0] d IH]; csimpl.
  - by intros ?%elem_of_nil.
  - rewrite elem_of_cons. case_decide; [by eexists|].
    intros [?|?]; [congruence | by apply IH].
Qed.

End DictFacts.

(** ** Loops over a lookup that always returns *)

Section StoreEach.

Context {W : Type}.
Implicit Types (f : string → W → option string * W) (d : dict).

Lemma sequential_total f tickers : ∀ d w,
  sequential_loop (total f) tickers d w
  = (Return (store_each f tickers d w).1, (store_each f tickers d w).2).
Proof.
  induction tickers as [|ticker rest IH]; intros d w; [done|].
  simpl. unfold mbind, M_bind, total at 1.
  destruct (f ticker w) as [cik w']. apply IH.
Qed.

Lemma run_threads_total f order : ∀ d w,
  run_threads (total f) order d w = store_each f order.*2 d w.
Proof.
  induction order as [|[pos ticker] rest IH]; intros d w; [done|].
  csimpl. unfold total at 1.
  destruct (f ticker w) as [cik w']. apply IH.
Qed.

Lemma store_each_keys f order : ∀ d w,
  NoDup (keys d) →
  NoDup (keys (store_each f order d w).1)
  ∧ ∀ k, k ∈ keys (store_each f order d w).1 ↔ k ∈ keys d ∨ k ∈ order.
Proof.
  induction order as [|ticker rest IH]; intros d w Hnd; simpl.
  - split; [done|]. intros k. rewrite elem_of_nil. tauto.
  - destruct (f ticker w) as [cik w'].
    destruct (IH (setitem ticker cik d) w') as [Hnd' Hin];
      [by apply NoDup_keys_setitem|].
    split; [done|]. intros k. rewrite Hin, elem_of_keys_setitem, elem_of_cons. tauto.
Qed.

(** With a lookup whose value depends on the ticker alone, the order of the
    stores does not show in what the dictionary holds. *)
Lemma store_each_det f (g : string → option string) order :
  (∀ ticker w, (f ticker w).1 = g ticker) →
  ∀ d w k,
    getitem k (store_each f order d w).1
    = if decide (k ∈ order) then Some (g k) else getitem k d.
Proof.
  intros Hdet. induction order as [|ticker rest IH]; intros d w k;
    cbn [store_each].
  - destruct (decide (k ∈ [])) as [Hin%elem_of_nil|]; done.
  - specialize (Hdet ticker w). destruct (f ticker w) as [cik w']. simpl in Hdet.
    rewrite IH, getitem_setitem. subst cik.
    destruct (decide (k ∈ rest)), (decide (k ∈ ticker :: rest)) as [Hin|Hnin],
      (decide (ticker = k)); try done.
    all: rewrite elem_of_cons in *; intuition congruence.
Qed.

(** With the calls recorded: one call for each ticker of [order], in that
    order, and what the dictionary holds was returned by one of them. *)
Lemma store_each_recorded f order : ∀ d w calls,
  (∀ k v, getitem k d = Some v → (k, v) ∈ calls) →
  ∃ d' w' new,
    store_each (recorded f) order d (w, calls) = (d', (w', calls ++ new))
    ∧ new.*1 = order
    ∧ ∀ k v, getitem k d' = Some v → (k, v) ∈ calls ++ new.
Proof.
  induction order as [|ticker rest IH]; intros d w calls Hinv; simpl.
  - exists d, w, []. rewrite app_nil_r. done.
  - destruct (f ticker w) as [cik w'].
    destruct (IH (setitem ticker cik d) w' (calls ++ [(ticker, cik)]))
      as (d' & w'' & new & Hrun & Hnew & Hinv').
    { intros k v. rewrite getitem_setitem, elem_of_app, list_elem_of_singleton.
      case_decide.
      - intros [= <-]. subst. by right.
      - intros ?%Hinv. by left. }
    exists d', w'', ((ticker, cik) :: new).
    rewrite Hrun. split; [by rewrite <- app_assoc|].
    split; [csimpl; by f_equal|].
    intros k v ?%Hinv'. by rewrite <- app_assoc in *.
Qed.

End StoreEach.

(** The worker threads all store, each once. *)
Lemma completion_order_perm {A} (picks : list nat) (n : nat) : ∀ pending : list A,
  length pending = n → completion_order picks pending n ≡ₚ pending.
Proof.
  revert picks. induction n as [|n IH]; intros picks pending Hlen; simpl.
  - by destruct pending.
  - destruct (lookup_lt_is_Some_2 pending (hd 0%nat picks `mod` length pending)%nat)
      as [x Hx].
    { apply Nat.mod_upper_bound. lia. }
    rewrite Hx. etrans; [|symmetry; by apply delete_Permutation].
    constructor. apply IH. rewrite length_delete by eauto. lia.
Qed.

(** Both branches of [get_CIKs], for a lookup that always returns: the
    lookups run one after the other in some order of the tickers, each storing
    its result. Without threads the order is that of the input. *)
Lemma get_CIKs_total {W} (f : string → W → option string * W)
    sched (tickers : list string) (b : bool) (w : W) :
  ∃ order,
    order ≡ₚ tickers
    ∧ (b = false → order = tickers)
    ∧ get_CIKs (total f) sched (PyList tickers) (PyBool b) w
      = (Return (store_each f order [] w).1, (store_each f order [] w).2).
Proof.
  destruct b; unfold get_CIKs; cbn [iterate negb].
  - unfold _get_CIKs_multithread, multithread_with.
    destruct (dispatch_gated sched tickers) as (evs & -> & _ & Hs).
    cbn [spawned]. rewrite Hs.
    set (order := completion_order _ _ _).
    exists order.*2. split; [|split; [done|]].
    + subst order. rewrite completion_order_perm by done.
      by rewrite imap_pair_snd.
    + rewrite run_threads_total. by destruct (store_each _ _ _ _).
  - exists tickers. split; [done|]. split; [done|]. apply sequential_total.
Qed.

(** ** The batch *)

(** C1. For every list of tickers, every lookup that returns, every timing
    and completion order of the threads, and both values of the flag: the
    batch returns a dictionary with one entry for each distinct ticker of the
    input and no other entry. With the calls of the lookup recorded, there is
    one call for each ticker of the input, repeated tickers included, and the
    entry of each ticker holds what one of the calls for it returned. *)
Theorem get_CIKs_keys {W} (f : string → W → option string * W)
    (sched : Sched) (tickers : list string) (b : bool) (w : W) :
  (∃ output w',
      get_CIKs (total f) sched (PyList tickers) (PyBool b) w = (Return output, w')
      ∧ NoDup (keys output)
      ∧ list_to_set (keys output) =@{gset string} list_to_set tickers)
  ∧ (∃ output w' calls,
      get_CIKs (total (recorded f)) sched (PyList tickers) (PyBool b) (w, [])
      = (Return output, (w', calls))
      ∧ calls.*1 ≡ₚ tickers
      ∧ NoDup (keys output)
      ∧ list_to_set (keys output) =@{gset string} list_to_set tickers
      ∧ ∀ ticker, ticker ∈ tickers →
          ∃ cik, getitem ticker output = Some cik ∧ (ticker, cik) ∈ calls).
Proof.
  split.
  - destruct (get_CIKs_total f sched tickers b w) as (order & Hperm & _ & ->).
    destruct (store_each_keys f order [] w) as [Hnd Hin]; [constructor|].
    eexists _, _. split; [reflexivity|]. split; [done|].
    apply set_eq. intros k. rewrite !elem_of_list_to_set, Hin, Hperm.
    unfold keys. rewrite elem_of_nil. tauto.
  - destruct (get_CIKs_total (recorded f) sched tickers b (w, []))
      as (order & Hperm & _ & ->).
    destruct (store_each_keys (recorded f) order [] (w, [])) as [Hnd Hin];
      [constructor|].
    destruct (store_each_recorded f order [] w []) as (d' & w' & new & Hrun & Hnew & Hval);
      [done|].
    rewrite Hrun in *. simpl in *.
    assert (∀ k, k ∈ keys d' ↔ k ∈ tickers) as Hkeys.
    { intros k. rewrite Hin, Hperm. unfold keys. rewrite elem_of_nil. tauto. }
    exists d', w', new. split; [done|]. split; [by rewrite Hnew|].
    split; [done|]. split.
    + apply set_eq. intros k. by rewrite !elem_of_list_to_set.
    + intros ticker Hticker. apply Hkeys, keys_getitem in Hticker as [cik Hcik].
      exists cik. split; [done|]. by apply Hval.
Qed.

Lemma get_CIKs_keys_witness :
  ∃ output w' calls,
    get_CIKs (total (recorded Sample.stub_fetch)) Sample.sched
      (PyList ["AAPL"; "AAPL"]) (PyBool true) ((), [])
    = (Return output, (w', calls))
    ∧ NoDup (keys output)
    ∧ ∃ cik, getitem "AAPL" output = Some cik ∧ ("AAPL", cik) ∈ calls.
Proof.
  destruct (get_CIKs_keys Sample.stub_fetch Sample.sched ["AAPL"; "AAPL"] true ())
    as [_ (output & w' & calls & Hrun & _ & Hnd & _ & Hval)].
  exists output, w', calls. split; [exact Hrun|]. split; [exact Hnd|].
  apply Hval. left.
Defined.

Example batch_of_three :
  (get_CIKs (total Sample.stub_fetch) Sample.sched
     (PyList ["AAPL"; "MSFT"; "ZZZZ"]) (PyBool false) ()).1
  = Return [("AAPL", Some "320193"); ("MSFT", Some "789019"); ("ZZZZ", None)]
  ∧ (get_CIKs (total Sample.stub_fetch) Sample.sched
       (PyList ["AAPL"; "MSFT"; "ZZZZ"]) (PyBool true) ()).1
    = Return [("MSFT", Some "789019"); ("AAPL", Some "320193"); ("ZZZZ", None)].
Proof. split; reflexivity. Qed.

Example batch_of_duplicates :
  (get_CIKs (total Sample.stub_fetch) Sample.sched
     (PyList ["AAPL"; "AAPL"]) (PyBool true) ()).1
  = Return [("AAPL", Some "320193")].
Proof. reflexivity. Qed.

(** C5. For every list of tickers and every lookup whose value depends on the
    ticker alone, the batch without threads and the batch with threads return
    dictionaries with the same keys and the same value under each key,
    whatever the timing and the completion order of the threads. *)
Theorem sequential_threaded_agree {W} (f : string → W → option string * W)
    (g : string → option string) (sched : Sched) (tickers : list string) (w : W) :
  (∀ ticker w0, (f ticker w0).1 = g ticker) →
  ∃ out_seq w_seq out_thr w_thr,
    get_CIKs (total f) sched (PyList tickers) (PyBool false) w = (Return out_seq, w_seq)
    ∧ get_CIKs (total f) sched (PyList tickers) (PyBool true) w = (Return out_thr, w_thr)
    ∧ keys out_seq ≡ₚ keys out_thr
    ∧ ∀ k, getitem k out_seq = getitem k out_thr.
Proof.
  intros Hdet.
  destruct (get_CIKs_total f sched tickers false w) as (o1 & Hp1 & _ & ->).
  destruct (get_CIKs_total f sched tickers true w) as (o2 & Hp2 & _ & ->).
  destruct (store_each_keys f o1 [] w) as [Hnd1 Hin1]; [constructor|].
  destruct (store_each_keys f o2 [] w) as [Hnd2 Hin2]; [constructor|].
  eexists _, _, _, _. split; [reflexivity|]. split; [reflexivity|]. split.
  - apply NoDup_Permutation; [done..|].
    intros k. by rewrite Hin1, Hin2, Hp1, Hp2.
  - intros k. rewrite !(store_each_det f g) by done.
    destruct (decide (k ∈ o1)) as [H1|H1], (decide (k ∈ o2)) as [H2|H2]; try done;
      rewrite Hp1, <- Hp2 in H1; done.
Qed.

Lemma sequential_threaded_agree_witness :
  (∀ ticker w0, (Sample.stub_fetch ticker w0).1 = Sample.stub ticker)
  ∧ ∃ out_seq w_seq out_thr w_thr,
      get_CIKs (total Sample.stub_fetch) Sample.sched
        (PyList ["AAPL"; "MSFT"; "AAPL"; "ZZZZ"]) (PyBool false) () = (Return out_seq, w_seq)
      ∧ get_CIKs (total Sample.stub_fetch) Sample.sched
          (PyList ["AAPL"; "MSFT"; "AAPL"; "ZZZZ"]) (PyBool true) () = (Return out_thr, w_thr)
      ∧ keys out_seq ≡ₚ keys out_thr
      ∧ ∀ k, getitem k out_seq = getitem k out_thr.
Proof.
  split; [reflexivity|].
  apply (sequential_threaded_agree Sample.stub_fetch Sample.stub).
  reflexivity.
Defined.

(** ** The lookup of one ticker *)

Section GetCIK.

Variable net : Fetch.Net.

(** The lookup reads its ticker only to build the address. *)
Lemma get_CIK_same_url ticker1 ticker2 :
  Fetch.url_of ticker1 = Fetch.url_of ticker2 →
  Fetch.get_CIK net ticker1 = Fetch.get_CIK net ticker2.
Proof. unfold Fetch.get_CIK. by intros ->. Qed.

(** A transport failure of the first request leaves the lookup after one
    request. *)
Lemma get_CIK_first_request_fails ticker log e :
  net log (Fetch.url_of ticker) = Raise e →
  Fetch.get_CIK net ticker log = (Raise e, log ++ [Fetch.url_of ticker]).
Proof.
  intros Hconn. unfold Fetch.get_CIK, mbind, M_bind, Fetch.get. by rewrite Hconn.
Qed.

(** A status that is not a success fails the assertion, once the body of
    the second response is read. *)
Lemma get_CIK_not_ok ticker log conn r text :
  net log (Fetch.url_of ticker) = Return conn →
  net (log ++ [Fetch.url_of ticker]) (Fetch.url_of ticker) = Return r →
  Fetch.content r = Some text →
  Fetch.ok conn = false →
  (Fetch.get_CIK net ticker log).1 = Raise AssertionError.
Proof.
  intros Hconn Hr Htext Hok.
  unfold Fetch.get_CIK, mbind, M_bind, Fetch.get, Fetch.decode.
  by rewrite Hconn, Hr, Htext, Hok.
Qed.

End GetCIK.

(** Against an endpoint that answers every request, the lookup is one that
    always returns; what is proved of the batch for such lookups holds for
    it. *)
Lemma get_CIK_total (net : Fetch.Net) :
  answers net →
  ∀ ticker log,
    Fetch.get_CIK net ticker log = total (get_CIK_answered net) ticker log.
Proof.
  intros Hnet ticker log.
  destruct (Hnet log (Fetch.url_of ticker)) as (conn & Hconn & Hok & _).
  destruct (Hnet (log ++ [Fetch.url_of ticker]) (Fetch.url_of ticker))
    as (r & Hr & _ & [text Htext]).
  unfold total, get_CIK_answered, Fetch.get_CIK, mbind, M_bind, Fetch.get, Fetch.decode.
  rewrite Hconn, Hr, Htext, Hok. simpl. by rewrite <- app_assoc.
Qed.

Example get_CIK_found :
  (Fetch.get_CIK Sample.net_page "AAPL" []).1 = Return (Some "0000320193").
Proof. reflexivity. Qed.

Example findall_leftmost :
  PyStr.findall "12 34 (see all company filings) 5 (see all company filings)"
  = ["34"; "5"].
Proof. reflexivity. Qed.

Example findall_empty_group :
  PyStr.findall "CIK (see all company filings)" = [""].
Proof. reflexivity. Qed.

(** C2, as the code has it. When both requests of the lookup are answered,
    the first answer has a success status and the body of the second decodes,
    the lookup returns: the digits of the first match of the pattern in the
    body, or [None] when the body has no match. It raises nothing then. *)
Theorem get_CIK_returns (net : Fetch.Net) (ticker : string) (log : list string)
    (conn r : Fetch.Response) (text : string) :
  net log (Fetch.url_of ticker) = Return conn →
  net (log ++ [Fetch.url_of ticker]) (Fetch.url_of ticker) = Return r →
  Fetch.content r = Some text →
  Fetch.ok conn = true →
  (Fetch.get_CIK net ticker log).1
  = Return (match PyStr.findall text with
            | m :: _ => Some (PyStr.replace_newline m)
            | [] => None
            end).
Proof.
  intros Hconn Hr Htext Hok.
  unfold Fetch.get_CIK, mbind, M_bind, Fetch.get, Fetch.decode.
  by rewrite Hconn, Hr, Htext, Hok.
Qed.

Lemma get_CIK_returns_witness :
  (Fetch.get_CIK Sample.net_no_match "ZZZZ" []).1 = Return None.
Proof.
  apply (get_CIK_returns Sample.net_no_match "ZZZZ" []
           {| Fetch.ok := true; Fetch.content := Some "<h1>No matching Ticker Symbol.</h1>" |}
           {| Fetch.ok := true; Fetch.content := Some "<h1>No matching Ticker Symbol.</h1>" |}
           "<h1>No matching Ticker Symbol.</h1>");
    reflexivity.
Defined.

(** C2 does not hold as the specification states it: against an endpoint that answers with an
    error status the lookup raises [AssertionError], against one that cannot
    be reached it raises the error of the transport, and the batch without
    threads stops with that exception. In the batch with threads the thread
    ends and its ticker is missing from the result. *)
Lemma get_CIK_raises :
  (Fetch.get_CIK Sample.net_denied "AAPL" []).1 = Raise AssertionError
  ∧ (Fetch.get_CIK Sample.net_down "AAPL" []).1 = Raise RequestException
  ∧ (get_CIKs (Fetch.get_CIK Sample.net_denied) Sample.sched
       (PyList ["AAPL"; "MSFT"]) (PyBool false) []).1 = Raise AssertionError
  ∧ (get_CIKs (Fetch.get_CIK Sample.net_denied) Sample.sched
       (PyList ["AAPL"; "MSFT"]) (PyBool true) []).1 = Return [].
Proof. repeat split; reflexivity. Qed.

(** C6. A lookup whose first request is answered sends two requests, both to
    the address of the ticker: one for [conn], whose status is checked, and a
    second one, whose body is read. *)
Theorem get_CIK_sends_two_requests (net : Fetch.Net) (ticker : string)
    (log : list string) (conn : Fetch.Response) :
  net log (Fetch.url_of ticker) = Return conn →
  (Fetch.get_CIK net ticker log).2
  = log ++ [Fetch.url_of ticker; Fetch.url_of ticker].
Proof.
  intros Hconn. unfold Fetch.get_CIK, mbind, M_bind, Fetch.get, Fetch.decode.
  rewrite Hconn.
  destruct (net (log ++ [Fetch.url_of ticker]) (Fetch.url_of ticker)) as [r|e];
    simpl; [|by rewrite <- app_assoc].
  destruct (Fetch.content r); simpl; [|by rewrite <- app_assoc].
  unfold assert_. destruct (Fetch.ok conn); simpl; by rewrite <- app_assoc.
Qed.

Lemma get_CIK_sends_two_requests_witness :
  (Fetch.get_CIK Sample.net_page "AAPL" []).2
  = [] ++ [Fetch.url_of "AAPL"; Fetch.url_of "AAPL"].
Proof.
  apply (get_CIK_sends_two_requests Sample.net_page "AAPL" []
           {| Fetch.ok := true;
              Fetch.content :=
                Some "<span>CIK#: 0000320193 (see all company filings)</span>" |}).
  reflexivity.
Defined.

(** ** The checks of the arguments *)

(** C4, as the code has it. An object that cannot be iterated is refused with
    [TypeError], and after that a flag that is not a [bool] with
    [ValueError]; an empty list is accepted and gives the empty dictionary. In
    the three cases the world is left as it was, whatever the lookup: no
    lookup is called. *)
Theorem get_CIKs_validation {W} (fetch : string → M W (option string))
    (sched : Sched) (w : W) :
  (∀ tickers flag,
      iterate tickers = None →
      get_CIKs fetch sched tickers flag w = (Raise TypeError, w))
  ∧ (∀ tickers flag,
      is_Some (iterate tickers) → (∀ b, flag ≠ PyBool b) →
      get_CIKs fetch sched tickers flag w = (Raise ValueError, w))
  ∧ (∀ b, get_CIKs fetch sched (PyList []) (PyBool b) w = (Return [], w)).
Proof.
  split; [|split].
  - intros tickers flag Hiter. unfold get_CIKs. by rewrite Hiter.
  - intros tickers flag [items Hiter] Hflag. unfold get_CIKs. rewrite Hiter.
    destruct flag; try done. by destruct (Hflag b).
  - by intros [].
Qed.

Lemma get_CIKs_validation_witness :
  get_CIKs (Fetch.get_CIK Sample.net_page) Sample.sched PyNone (PyBool true) []
  = (Raise TypeError, [])
  ∧ get_CIKs (Fetch.get_CIK Sample.net_page) Sample.sched (PyList ["AAPL"]) (PyInt 1) []
    = (Raise ValueError, [])
  ∧ get_CIKs (Fetch.get_CIK Sample.net_page) Sample.sched (PyList []) (PyBool true) []
    = (Return [], []).
Proof.
  destruct (get_CIKs_validation (Fetch.get_CIK Sample.net_page) Sample.sched [])
    as (Hiter & Hflag & Hempty).
  split; [|split].
  - apply Hiter. reflexivity.
  - apply Hflag; [by eexists | done].
  - apply Hempty.
Defined.

(** C4 does not hold as the specification states it: the empty list of
    tickers is not refused.
    With either value of the flag the batch returns the empty dictionary. *)
Lemma empty_tickers_not_rejected :
  ¬ raises (get_CIKs (Fetch.get_CIK Sample.net_page) Sample.sched
              (PyList []) (PyBool true) []).1
  ∧ ¬ raises (get_CIKs (Fetch.get_CIK Sample.net_page) Sample.sched
                (PyList []) (PyBool false) []).1.
Proof. split; intros [e He]; discriminate He. Qed.


(** ** Keys and addresses *)

Lemma url_of_strip ticker1 ticker2 :
  PyStr.strip ticker1 = PyStr.strip ticker2 →
  Fetch.url_of ticker1 = Fetch.url_of ticker2.
Proof. unfold Fetch.url_of. by intros ->. Qed.

(** C9. The keys of the result are the tickers as they were passed: a string
    is a key exactly when it is one of the tickers of the input. Two different
    tickers that are equal once stripped have the same address, so that their
    lookups are the same computation against every endpoint, and a batch over
    the two returns two entries, one under each. *)
Theorem keys_are_input_strings {W} (f : string → W → option string * W)
    (sched : Sched) (b : bool) (w : W) :
  (∀ tickers, ∃ output w',
      get_CIKs (total f) sched (PyList tickers) (PyBool b) w = (Return output, w')
      ∧ ∀ k, k ∈ keys output ↔ k ∈ tickers)
  ∧ (∀ ticker1 ticker2,
      ticker1 ≠ ticker2 →
      PyStr.strip ticker1 = PyStr.strip ticker2 →
      Fetch.url_of ticker1 = Fetch.url_of ticker2
      ∧ (∀ net, Fetch.get_CIK net ticker1 = Fetch.get_CIK net ticker2)
      ∧ ∃ output w',
          get_CIKs (total f) sched (PyList [ticker1; ticker2]) (PyBool b) w
          = (Return output, w')
          ∧ keys output ≡ₚ [ticker1; ticker2]).
Proof.
  assert (∀ tickers, ∃ output w',
      get_CIKs (total f) sched (PyList tickers) (PyBool b) w = (Return output, w')
      ∧ NoDup (keys output)
      ∧ ∀ k, k ∈ keys output ↔ k ∈ tickers) as Hkeys.
  { intros tickers.
    destruct (get_CIKs_total f sched tickers b w) as (order & Hperm & _ & ->).
    destruct (store_each_keys f order [] w) as [Hnd Hin]; [constructor|].
    eexists _, _. split; [reflexivity|]. split; [done|].
    intros k. rewrite Hin, Hperm. unfold keys. rewrite elem_of_nil. tauto. }
  split.
  - intros tickers. destruct (Hkeys tickers) as (output & w' & ? & _ & ?). eauto.
  - intros ticker1 ticker2 Hne Hstrip.
    split; [by apply url_of_strip|].
    split; [intros net; by apply get_CIK_same_url, url_of_strip|].
    destruct (Hkeys [ticker1; ticker2]) as (output & w' & Hrun & Hnd & Hin).
    exists output, w'. split; [done|].
    apply NoDup_Permutation; [done| |done].
    apply NoDup_cons. split; [|apply NoDup_singleton].
    by intros ->%list_elem_of_singleton.
Qed.

Lemma keys_are_input_strings_witness :
  "AAPL" ≠ " AAPL" +:+ Sample.nl
  ∧ PyStr.strip "AAPL" = PyStr.strip (" AAPL" +:+ Sample.nl)
  ∧ Fetch.url_of "AAPL" = Fetch.url_of (" AAPL" +:+ Sample.nl)
  ∧ (∀ net, Fetch.get_CIK net "AAPL" = Fetch.get_CIK net (" AAPL" +:+ Sample.nl))
  ∧ ∃ output w',
      get_CIKs (total Sample.stub_fetch) Sample.sched
        (PyList ["AAPL"; " AAPL" +:+ Sample.nl]) (PyBool true) ()
      = (Return output, w')
      ∧ keys output ≡ₚ ["AAPL"; " AAPL" +:+ Sample.nl].
Proof.
  split; [done|]. split; [reflexivity|].
  apply (keys_are_input_strings Sample.stub_fetch Sample.sched true ());
    [done | reflexivity].
Defined.

Example batch_keeps_whitespace :
  get_CIKs (Fetch.get_CIK Sample.net_page) Sample.sched
    (PyList ["AAPL"; " AAPL" +:+ Sample.nl]) (PyBool false) []
  = (Return [("AAPL", Some "0000320193"); (" AAPL" +:+ Sample.nl, Some "0000320193")],
     replicate 4 (Fetch.url_of "AAPL")).
Proof. reflexivity. Qed.

(** ** From file to file *)

Section StringFacts.

Lemma string_app_cons c (s1 s2 : string) : String c s1 +:+ s2 = String c (s1 +:+ s2).
Proof. reflexivity. Qed.

Lemma string_app_nil_r (s : string) : s +:+ "" = s.
Proof. induction s as [|c s IH]; [done|]. by rewrite string_app_cons, IH. Qed.

Lemma string_app_assoc (s1 s2 s3 : string) : (s1 +:+ s2) +:+ s3 = s1 +:+ s2 +:+ s3.
Proof. induction s1 as [|c s1 IH]; [done|]. by rewrite !string_app_cons, IH. Qed.

Lemma count_newlines_app (s1 s2 : string) :
  count_newlines (s1 +:+ s2) = (count_newlines s1 + count_newlines s2)%nat.
Proof.
  induction s1 as [|c s1 IH]; [done|].
  rewrite string_app_cons. cbn [count_newlines]. rewrite IH. lia.
Qed.

End StringFacts.

(** The loop of [out.write] appends one record for each item, in the order of
    the dictionary. *)
Lemma write_items_lines (items : dict) : ∀ written,
  Files.write_items items written
  = written +:+ foldr String.app ""
      ((λ '(ticker, cik), ticker +:+ "," +:+ Files.str_of cik +:+ Sample.nl) <$> items).
Proof.
  induction items as [|[ticker cik] rest IH]; intros written; csimpl.
  - by rewrite string_app_nil_r.
  - rewrite IH. by rewrite !string_app_assoc.
Qed.

Lemma count_newlines_lines (items : dict) :
  (∀ ticker cik, (ticker, cik) ∈ items →
     count_newlines ticker = 0%nat ∧ count_newlines (Files.str_of cik) = 0%nat) →
  count_newlines (foldr String.app ""
      ((λ '(ticker, cik), ticker +:+ "," +:+ Files.str_of cik +:+ Sample.nl) <$> items))
  = length items.
Proof.
  induction items as [|[ticker cik] rest IH]; intros Hfree; csimpl; [done|].
  destruct (Hfree ticker cik) as [Ht Hc]; [by left|].
  rewrite !count_newlines_app, Ht, Hc, IH; [done|].
  intros t c Hin. apply Hfree. by right.
Qed.

(** C8. When the ticker file can be read and split and the batch returns a
    dictionary, the output file holds, in place of whatever it held before,
    one record for each entry of the dictionary, in the order of the
    dictionary: the ticker, a comma, the CIK or the word None when there is
    no CIK, and a newline. No other file changes. When no ticker and no CIK
    contains a newline, the file has as many newlines as the dictionary has
    entries. *)
Theorem file_has_one_line_per_entry {W} (fetch : string → M W (option string))
    (sched : Sched) (tickerFilePath outputFilePath delim : string) (flag : pyobj)
    (fs : Files.FS) (w w' : W) (text : string) (tickers : list string) (mapped : dict) :
  <[outputFilePath := ""]> fs !! tickerFilePath = Some text →
  PyStr.split text delim = Return tickers →
  get_CIKs fetch sched (PyList tickers) flag w = (Return mapped, w') →
  ∃ fs' written,
    Files.get_CIKs_file_to_file fetch sched tickerFilePath outputFilePath delim flag (fs, w)
    = (Return (), (fs', w'))
    ∧ fs' !! outputFilePath = Some written
    ∧ written
      = foldr String.app ""
          ((λ '(ticker, cik),
              ticker +:+ "," +:+ match cik with Some s => s | None => "None" end
                     +:+ String PyStr.newline "") <$> mapped)
    ∧ (∀ path, path ≠ outputFilePath → fs' !! path = fs !! path)
    ∧ ((∀ ticker cik, (ticker, cik) ∈ mapped →
          count_newlines ticker = 0%nat ∧ count_newlines (Files.str_of cik) = 0%nat) →
       count_newlines written = length mapped).
Proof.
  intros Hread Hsplit Hrun.
  unfold Files.get_CIKs_file_to_file. rewrite Hread, Hsplit, Hrun.
  eexists _, _. split; [reflexivity|].
  split; [by rewrite lookup_insert_eq|].
  split; [|split].
  - by rewrite write_items_lines.
  - intros path Hne. by rewrite !lookup_insert_ne.
  - intros Hfree. rewrite write_items_lines. cbn -[count_newlines].
    by apply count_newlines_lines.
Qed.

Lemma file_has_one_line_per_entry_witness :
  ∃ fs' written,
    Files.get_CIKs_file_to_file (total Sample.stub_fetch) Sample.sched
      "tickers.txt" "ciks.csv" Sample.nl (PyBool false) (Sample.files, ())
    = (Return (), (fs', ()))
    ∧ fs' !! "ciks.csv" = Some written
    ∧ written = "AAPL,320193" +:+ Sample.nl +:+ "ZZZZ,None" +:+ Sample.nl.
Proof.
  destruct (file_has_one_line_per_entry (total Sample.stub_fetch) Sample.sched
              "tickers.txt" "ciks.csv" Sample.nl (PyBool false) Sample.files () ()
              ("AAPL" +:+ Sample.nl +:+ "ZZZZ") ["AAPL"; "ZZZZ"]
              [("AAPL", Some "320193"); ("ZZZZ", None)])
    as (fs' & written & Hrun & Hfile & Hwritten & _);
    [vm_compute; reflexivity | reflexivity | reflexivity |].
  exists fs', written. split; [exact Hrun|]. split; [exact Hfile|]. exact Hwritten.
Defined.

(** * Further properties *)

(** ** Sequences of calls on a timer *)

Section TimerCalls.

Lemma bad_prefix_not_wait self call rest :
  call ≠ CallWait → ¬ bad_prefix self (call :: rest).
Proof.
  unfold bad_prefix. intros Hcall Hbad.
  destruct (Timer._thread self); [done | |];
    destruct Hbad as [rest' Heq]; injection Heq as -> _; done.
Qed.

Lemma run_calls_raises calls : ∀ now self,
  raises (run_calls calls now self) ↔ bad_prefix self calls ∨ misused calls.
Proof.
  induction calls as [|call rest IH]; intros now self.
  - split.
    + by intros [e He].
    + intros [Hbad|Hmis]; [|inversion Hmis].
      unfold bad_prefix in Hbad.
      destruct (Timer._thread self); by destruct Hbad.
  - destruct call as [seconds| |seconds]; cbn [run_calls].
    + rewrite IH. unfold bad_prefix at 1. cbn.
      split.
      * intros [[rest' ->]|Hmis]; right; [constructor | by constructor].
      * intros [Hbad|Hmis]; [by apply bad_prefix_not_wait in Hbad|].
        inversion Hmis; subst; [left; by eexists | by right].
    + destruct self as [[|deadline|]]; unfold Timer.wait, bad_prefix; cbn.
      * rewrite IH. unfold bad_prefix. cbn. split.
        { intros [[]|Hmis]. right. by constructor. }
        intros [[]|Hmis]. inversion Hmis; subst. by right.
      * rewrite IH. unfold bad_prefix. cbn. split.
        { intros [[rest' ->]|Hmis]; [left; by eexists | right; by constructor]. }
        intros [[rest' [= ->]]|Hmis]; [left; by eexists|].
        inversion Hmis; subst. by right.
      * split; [intros _; left; by eexists | intros _; by eexists].
    + unfold Timer.startAndWait. rewrite wait_joined, IH.
      unfold bad_prefix at 1. cbn. split.
      * intros [[rest' ->]|Hmis]; right; [constructor | by constructor].
      * intros [Hbad|Hmis]; [by apply bad_prefix_not_wait in Hbad|].
        inversion Hmis; subst; [left; by eexists | by right].
Qed.

Lemma run_calls_exception calls : ∀ now self e,
  run_calls calls now self = Raise e → e = AttributeError.
Proof.
  induction calls as [|call rest IH]; intros now self e; cbn [run_calls].
  - done.
  - destruct call as [seconds| |seconds].
    + apply IH.
    + unfold Timer.wait. destruct (Timer._thread self); eauto. by intros [= <-].
    + unfold Timer.startAndWait. rewrite wait_joined. apply IH.
Qed.

End TimerCalls.

(** X1. A sequence of [start], [wait] and [startAndWait] calls on a new timer
    raises exactly when it has a [wait] right after [startAndWait], or two
    [wait] in a row right after a [start]; the exception is then
    [AttributeError]. Every other sequence returns. *)
Theorem timer_calls_raise_iff_misused (calls : list timer_call) (now : N) :
  (raises (run_calls calls now Timer.init) ↔ misused calls)
  ∧ (run_calls calls now Timer.init = Raise AttributeError ↔ misused calls)
  ∧ (returns (run_calls calls now Timer.init) ↔ ¬ misused calls).
Proof.
  assert (raises (run_calls calls now Timer.init) ↔ misused calls) as Hiff.
  { rewrite run_calls_raises. unfold bad_prefix. cbn. tauto. }
  split; [done|]. split.
  - rewrite <- Hiff. split; [by eexists|].
    intros [e He]. by rewrite (run_calls_exception _ _ _ _ He) in He.
  - rewrite <- Hiff. destruct (run_calls calls now Timer.init) as [r|e].
    + split; [|by eexists]. by intros _ [e He].
    + split; [by intros [r Hr]|]. intros Hno. destruct Hno. by eexists.
Qed.

Lemma timer_calls_raise_iff_misused_witness :
  run_calls [CallWait; CallStartAndWait 1; CallStart 2; CallWait; CallStartAndWait 1; CallWait]
    0 Timer.init
  = Raise AttributeError.
Proof.
  apply (timer_calls_raise_iff_misused
           [CallWait; CallStartAndWait 1; CallStart 2; CallWait; CallStartAndWait 1; CallWait]
           0%N).
  do 4 apply misused_later. apply misused_wait_after_startAndWait.
Defined.

(** ** The times of the thread starts *)

Section DispatchTimes.

Variable sched : Sched.

(** The loop of the source produces the events of the relation. *)
Lemma main_loop_trace tickers : ∀ (p c : nat) (i : Z) (now t : N),
  Z.of_nat p - i = Z.of_nat c →
  (c ≤ 5)%nat →
  ∃ evs,
    main_loop 5 sched (imap (λ k, pair (p + k)%nat) tickers)
      {| Timer._thread := Timer.IsThread (t + 1000) |} i now = Return evs
    ∧ trace_from (elapsed sched) p c now t evs.
Proof.
  induction tickers as [|ticker rest IH]; intros p c i now t Hc Hle.
  - eexists. split; [reflexivity | constructor].
  - rewrite imap_cons, imap_shift, Nat.add_0_r. simpl.
    case_decide as Hfull.
    + assert (c = 5%nat) as -> by lia.
      set (now' := N.max now (t + 1000)).
      destruct (IH (S p) 1%nat (Z.of_nat p) (now' + elapsed sched p)%N now')
        as (evs & Hrun & Htr); [lia | lia |].
      unfold Timer.start. simpl.
      replace (now' + 1000 * 1)%N with (now' + 1000)%N by lia.
      simpl in Hrun. rewrite Hrun. eexists. split; [reflexivity|].
      simpl. by constructor.
    + destruct (IH (S p) (S c) i (now + elapsed sched p)%N t)
        as (evs & Hrun & Htr); [lia | lia |].
      simpl in Hrun. rewrite Hrun. eexists. split; [reflexivity|].
      simpl. constructor; [lia | done].
Qed.

Lemma dispatch_trace tickers :
  ∃ evs,
    dispatch 5 sched tickers = Return (EStart (start_time sched) :: evs)
    ∧ trace_from (elapsed sched) 0 0 (start_time sched) (start_time sched) evs.
Proof.
  destruct (main_loop_trace tickers 0 0 0 (start_time sched) (start_time sched))
    as (evs & Hrun & Htr); [lia | lia |].
  exists evs. unfold dispatch, Timer.start, Timer.init.
  replace (start_time sched + 1000 * 1)%N with (start_time sched + 1000)%N by lia.
  change (imap pair tickers) with (imap (λ k, pair (0 + k)%nat) tickers).
  by rewrite Hrun.
Qed.

End DispatchTimes.

Section TraceFacts.

Variable e : nat → N.

Lemma total_elapsed_S p k :
  total_elapsed e p (S k) = (total_elapsed e p k + e (p + k)%nat)%N.
Proof.
  revert p. induction k as [|k IH]; intros p.
  - cbn. rewrite Nat.add_0_r. lia.
  - change (total_elapsed e p (S (S k)))
      with (e p + total_elapsed e (S p) (S k))%N.
    rewrite IH. cbn [total_elapsed].
    replace (S p + k)%nat with (p + S k)%nat by lia. lia.
Qed.

(** The starts of a trace are those of the positions from [p] on, none
    before the time at which the trace begins. *)
Lemma trace_spawn_later p c now t evs :
  trace_from e p c now t evs →
  ∀ q ticker at_, ESpawn q ticker at_ ∈ evs → (p ≤ q)%nat ∧ (now ≤ at_)%N.
Proof.
  induction 1 as [|p c now t ticker0 evs Hc Htr IH|p now t ticker0 evs now' Htr IH];
    intros q ticker at_ Hin.
  - by apply elem_of_nil in Hin.
  - apply elem_of_cons in Hin as [[= -> -> ->]|Hin]; [lia|].
    destruct (IH _ _ _ Hin). lia.
  - rewrite !elem_of_cons in Hin.
    destruct Hin as [?|[?|[[= -> -> ->]|Hin]]]; try done; [subst now'; lia|].
    destruct (IH _ _ _ Hin). subst now'. lia.
Qed.

(** A start is never earlier than one second for each window that had to
    open since the one of [t], and never later than that plus the time that
    the starts before it take. *)
Lemma trace_spawn_bounds p c now t evs :
  trace_from e p c now t evs →
  (t ≤ now)%N →
  ∀ q ticker at_, ESpawn q ticker at_ ∈ evs →
    (t + 1000 * N.of_nat ((c + (q - p)) / 5) ≤ at_)%N
    ∧ (at_ ≤ now + 1000 * N.of_nat ((c + (q - p)) / 5) + total_elapsed e p (q - p))%N.
Proof.
  induction 1 as [|p c now t ticker0 evs Hc Htr IH|p now t ticker0 evs now' Htr IH];
    intros Hnow q ticker at_ Hin.
  - by apply elem_of_nil in Hin.
  - apply elem_of_cons in Hin as [[= -> -> ->]|Hin].
    + rewrite Nat.sub_diag, Nat.add_0_r. cbn [total_elapsed].
      rewrite Nat.div_small by lia. lia.
    + destruct (trace_spawn_later _ _ _ _ _ Htr _ _ _ Hin) as [Hq _].
      destruct (IH ltac:(lia) _ _ _ Hin) as [Hlo Hhi].
      replace (S c + (q - S p))%nat with (c + (q - p))%nat in * by lia.
      replace (total_elapsed e p (q - p))
        with (e p + total_elapsed e (S p) (q - S p))%N
        by (by replace (q - p)%nat with (S (q - S p)) by lia).
      split; [exact Hlo|].
      clear -Hhi. revert Hhi.
      generalize (N.of_nat ((c + (q - p)) / 5)), (total_elapsed e (S p) (q - S p)), (e p).
      intros; lia.
  - rewrite !elem_of_cons in Hin.
    destruct Hin as [?|[?|[[= -> -> ->]|Hin]]]; try done.
    + rewrite Nat.sub_diag, Nat.add_0_r. cbn [total_elapsed].
      change (5 / 5)%nat with 1%nat. subst now'. lia.
    + destruct (trace_spawn_later _ _ _ _ _ Htr _ _ _ Hin) as [Hq _].
      destruct (IH ltac:(lia) _ _ _ Hin) as [Hlo Hhi].
      replace ((5 + (q - p)) / 5)%nat with (S ((1 + (q - S p)) / 5))%nat.
      2:{ replace (5 + (q - p))%nat with (1 * 5 + (1 + (q - S p)))%nat by lia.
          rewrite Nat.div_add_l by lia. lia. }
      replace (total_elapsed e p (q - p))
        with (e p + total_elapsed e (S p) (q - S p))%N
        by (by replace (q - p)%nat with (S (q - S p)) by lia).
      subst now'. rewrite Nat2N.inj_succ.
      clear -Hlo Hhi Hnow. revert Hlo Hhi.
      generalize (N.of_nat ((1 + (q - S p)) / 5)), (total_elapsed e (S p) (q - S p)), (e p).
      intros; lia.
Qed.

End TraceFacts.

Section TraceWindows.

Variable e : nat → N.



(** A wait returns within a second. *)
Lemma trace_wait_bounded p c now t evs :
  trace_from e p c now t evs →
  (t ≤ now)%N →
  ∀ from to, EWait from to ∈ evs → (from ≤ to)%N ∧ (to ≤ from + 1000)%N.
Proof.
  induction 1 as [|p c now t ticker0 evs Hc Htr IH|p now t ticker0 evs now' Htr IH];
    intros Hnow from to Hin.
  - by apply elem_of_nil in Hin.
  - apply elem_of_cons in Hin as [?|Hin]; [done|]. apply IH; [lia | done].
  - rewrite !elem_of_cons in Hin.
    destruct Hin as [[= -> ->]|[?|[?|Hin]]]; try done; [subst now'; lia|].
    apply IH; [lia | done].
Qed.


End TraceWindows.

Lemma spawn_in_spawned evs pos ticker at_ :
  ESpawn pos ticker at_ ∈ evs → (pos, ticker) ∈ spawned evs.
Proof.
  induction evs as [|ev evs IH]; [by intros ?%elem_of_nil|].
  intros [Heq|Hin]%elem_of_cons; [subst ev; by left|].
  destruct ev; cbn [spawned]; [by apply IH.. |]. right. by apply IH.
Qed.

(** The events of a run of the loop of the source, in the two forms. *)
Lemma dispatch_events sched tickers evs :
  dispatch 5 sched tickers = Return evs →
  ∃ evs',
    evs = EStart (start_time sched) :: evs'
    ∧ trace_from (elapsed sched) 0 0 (start_time sched) (start_time sched) evs'
    ∧ spawned evs' = imap pair tickers.
Proof.
  intros Hrun.
  destruct (dispatch_trace sched tickers) as (evs1 & Hrun1 & Htr).
  destruct (dispatch_gated sched tickers) as (evs2 & Hrun2 & _ & Hs).
  rewrite Hrun1 in Hrun2. injection Hrun2 as <-.
  rewrite Hrun1 in Hrun. injection Hrun as <-. eauto.
Qed.

(** X2. In the threaded batch, the thread of position [pos] is the one of the
    ticker at that position. It starts no earlier than one second for each
    complete group of 5 positions before it, counted from the start of the
    batch, and no later than that plus the time that the starts before it
    took. *)
Theorem thread_start_times (sched : Sched) (tickers : list string) (evs : list event) :
  dispatch 5 sched tickers = Return evs →
  ∀ pos ticker at_,
    ESpawn pos ticker at_ ∈ evs →
    tickers !! pos = Some ticker
    ∧ (start_time sched + 1000 * N.of_nat (pos / 5) ≤ at_)%N
    ∧ (at_ ≤ start_time sched + 1000 * N.of_nat (pos / 5)
             + total_elapsed (elapsed sched) 0 pos)%N.
Proof.
  intros (evs' & -> & Htr & Hs)%dispatch_events pos ticker at_ Hin.
  apply elem_of_cons in Hin as [?|Hin]; [done|].
  split.
  - apply spawn_in_spawned in Hin. rewrite Hs in Hin.
    apply elem_of_lookup_imap in Hin as (i & x & [= -> ->] & Hx). done.
  - destruct (trace_spawn_bounds _ _ _ _ _ _ Htr ltac:(lia) _ _ _ Hin) as [Hlo Hhi].
    rewrite Nat.sub_0_r, Nat.add_0_l in *. done.
Qed.

Lemma thread_start_times_witness :
  ["A"; "B"; "C"; "D"; "E"; "F"; "G"; "H"; "I"; "J"; "K"; "L"] !! 11%nat = Some "L"
  ∧ (start_time Sample.sched + 1000 * N.of_nat (11 / 5) ≤ 2010)%N
  ∧ (2010 ≤ start_time Sample.sched + 1000 * N.of_nat (11 / 5)
            + total_elapsed (elapsed Sample.sched) 0 11)%N.
Proof.
  apply (thread_start_times Sample.sched
           ["A"; "B"; "C"; "D"; "E"; "F"; "G"; "H"; "I"; "J"; "K"; "L"] _ eq_refl
           11%nat "L" 2010%N).
  vm_compute. repeat constructor.
Defined.



(** X4. In the threaded batch, a [timer.wait()] of the loop returns within a
    second of its call. *)
Theorem loop_wait_within_a_second (sched : Sched) (tickers : list string)
    (evs : list event) :
  dispatch 5 sched tickers = Return evs →
  ∀ from to, EWait from to ∈ evs → (from ≤ to)%N ∧ (to ≤ from + 1000)%N.
Proof.
  intros (evs' & -> & Htr & _)%dispatch_events from to Hin.
  apply elem_of_cons in Hin as [?|Hin]; [done|].
  by eapply (trace_wait_bounded _ _ _ _ _ _ Htr).
Qed.

Lemma loop_wait_within_a_second_witness :
  (50 ≤ 1000)%N ∧ (1000 ≤ 50 + 1000)%N.
Proof.
  apply (loop_wait_within_a_second Sample.sched
           ["A"; "B"; "C"; "D"; "E"; "F"; "G"; "H"; "I"; "J"; "K"; "L"] _ eq_refl
           50%N 1000%N).
  vm_compute. repeat constructor.
Defined.



(** ** What the lookup extracts *)

Section Extraction.

Lemma prefix_app_iff (a b : string) :
  String.prefix a b = true ↔ ∃ c, b = a +:+ c.
Proof.
  revert b. induction a as [|x a IH]; intros b.
  - split; [intros _; by exists b | by destruct b].
  - destruct b as [|y b]; cbn [String.prefix].
    + split; [done | by intros [c Hc]].
    + destruct (ascii_dec x y) as [->|Hne].
      * rewrite IH. split; intros [c Hc]; exists c.
        -- by rewrite string_app_cons, Hc.
        -- rewrite string_app_cons in Hc. by injection Hc.
      * split; [done|]. intros [c Hc]. rewrite string_app_cons in Hc.
        injection Hc as -> _. done.
Qed.

Lemma span_digits_spec (s : string) : ∀ ds rest,
  PyStr.span_digits s = (ds, rest) → s = ds +:+ rest ∧ all_digits ds = true.
Proof.
  induction s as [|c s IH]; intros ds rest; cbn [PyStr.span_digits].
  - by intros [= <- <-].
  - destruct (PyStr.isdigit09 c) eqn:Hc; [|by intros [= <- <-]].
    destruct (PyStr.span_digits s) as [ds' rest'].
    intros [= <- <-]. destruct (IH ds' rest' eq_refl) as [-> Hds].
    split; [done|]. cbn [all_digits]. by rewrite Hc, Hds.
Qed.

Lemma match_here_Some (s ds : string) (len : nat) :
  PyStr.match_here s = Some (ds, len) →
  all_digits ds = true ∧ ∃ b, s = ds +:+ PyStr.filings_literal +:+ b.
Proof.
  unfold PyStr.match_here.
  destruct (PyStr.span_digits s) as [ds' rest] eqn:Hspan.
  destruct (String.prefix PyStr.filings_literal rest) eqn:Hpre; [|done].
  intros [= <- _]. apply span_digits_spec in Hspan as [-> Hds].
  apply prefix_app_iff in Hpre as [b ->]. split; [done|]. by exists b.
Qed.

Lemma match_here_literal (b : string) :
  ∃ len, PyStr.match_here (PyStr.filings_literal +:+ b) = Some (EmptyString, len).
Proof.
  unfold PyStr.match_here.
  assert (PyStr.span_digits (PyStr.filings_literal +:+ b)
          = (EmptyString, PyStr.filings_literal +:+ b)) as -> by reflexivity.
  assert (String.prefix PyStr.filings_literal (PyStr.filings_literal +:+ b) = true)
    as -> by (apply prefix_app_iff; by exists b).
  by eexists.
Qed.

Lemma occurs_cons (pat : string) c (s : string) :
  occurs pat s → occurs pat (String c s).
Proof. intros (a & b & ->). by exists (String c a), b. Qed.

(** Every match is a run of digits that the literal follows in the text. *)
Lemma findall_from_spec (s : string) : ∀ skip,
  Forall (λ m, all_digits m = true ∧ occurs (m +:+ PyStr.filings_literal) s)
    (PyStr.findall_from s skip).
Proof.
  induction s as [|c s IH]; intros skip; cbn [PyStr.findall_from]; [constructor|].
  assert (∀ k, Forall (λ m, all_digits m = true
                            ∧ occurs (m +:+ PyStr.filings_literal) (String c s))
                 (PyStr.findall_from s k)) as IH'.
  { intros k. eapply Forall_impl; [apply IH|].
    intros m [? ?]. split; [done | by apply occurs_cons]. }
  destruct skip as [|k]; [|apply IH'].
  destruct (PyStr.match_here (String c s)) as [[ds len]|] eqn:Hm; [|apply IH'].
  constructor; [|apply IH'].
  apply match_here_Some in Hm as [Hds [b Hb]]. split; [done|].
  exists EmptyString, b. rewrite Hb. by rewrite string_app_assoc.
Qed.

(** Without a match, no place of the text starts one. *)
Lemma findall_from_nil (s : string) :
  PyStr.findall_from s 0 = [] →
  ∀ a s', s = a +:+ s' → PyStr.match_here s' = None.
Proof.
  induction s as [|c s IH]; cbn [PyStr.findall_from]; intros Hnil a s' Hs.
  - destruct a as [|x a]; [|by rewrite string_app_cons in Hs].
    change (EmptyString = s') in Hs. by subst s'.
  - destruct (PyStr.match_here (String c s)) as [[ds len]|] eqn:Hm; [done|].
    destruct a as [|x a].
    + change (String c s = s') in Hs. by subst s'.
    + rewrite string_app_cons in Hs. injection Hs as _ Hs. by eapply IH.
Qed.

Lemma replace_newline_digits (s : string) :
  all_digits s = true → PyStr.replace_newline s = s.
Proof.
  induction s as [|c s IH]; [done|]. cbn [all_digits PyStr.replace_newline].
  intros [Hc Hs]%andb_prop.
  destruct (Ascii.eqb_spec c PyStr.newline) as [->|_]; [done|]. by rewrite IH.
Qed.

Lemma extract_Some (data v : string) :
  Fetch.extract data = Some v →
  all_digits v = true ∧ occurs (v +:+ PyStr.filings_literal) data.
Proof.
  unfold Fetch.extract, PyStr.findall.
  pose proof (findall_from_spec data 0) as Hall.
  destruct (PyStr.findall_from data 0) as [|m ms]; [done|].
  apply Forall_cons in Hall as [[Hm Hocc] _].
  rewrite replace_newline_digits by done. by intros [= <-].
Qed.

End Extraction.

(** X6. The extraction of [get_CIK] gives [None] exactly when the text
    " (see all company filings)" does not occur in the page. *)
Theorem extract_None_iff (data : string) :
  Fetch.extract data = None ↔ ¬ occurs PyStr.filings_literal data.
Proof.
  split.
  - unfold Fetch.extract, PyStr.findall.
    destruct (PyStr.findall_from data 0) as [|m ms] eqn:Hfind; [|done].
    intros _ (a & b & Hdata).
    destruct (match_here_literal b) as [len Hlen].
    by rewrite (findall_from_nil data Hfind a _ Hdata) in Hlen.
  - intros Hno. destruct (Fetch.extract data) as [v|] eqn:Hext; [|done].
    destruct Hno. apply extract_Some in Hext as [_ (a & b & ->)].
    exists (a +:+ v), b. by rewrite !string_app_assoc.
Qed.

(** X7. Whenever [get_CIK] returns a value, the value is a run of the digits
    0 to 9, possibly empty, and the body of the second response holds it
    right before the text " (see all company filings)". *)
Theorem get_CIK_value_is_digits (net : Fetch.Net) (ticker : string)
    (log : list string) (v : string) :
  (Fetch.get_CIK net ticker log).1 = Return (Some v) →
  all_digits v = true
  ∧ ∃ r text,
      net (log ++ [Fetch.url_of ticker]) (Fetch.url_of ticker) = Return r
      ∧ Fetch.content r = Some text
      ∧ occurs (v +:+ PyStr.filings_literal) text.
Proof.
  unfold Fetch.get_CIK, mbind, M_bind, Fetch.get, Fetch.decode.
  destruct (net log (Fetch.url_of ticker)) as [conn|?]; [|done].
  destruct (net (log ++ [Fetch.url_of ticker]) (Fetch.url_of ticker)) as [r|?]; [|done].
  destruct (Fetch.content r) as [text|] eqn:Htext; [|done].
  unfold assert_. destruct (Fetch.ok conn); [|done].
  cbn. intros [= Hext]. apply extract_Some in Hext as [Hv Hocc].
  split; [done|]. by exists r, text.
Qed.

Lemma get_CIK_value_is_digits_witness :
  all_digits "0000320193" = true
  ∧ ∃ r text,
      Sample.net_page ([] ++ [Fetch.url_of "AAPL"]) (Fetch.url_of "AAPL") = Return r
      ∧ Fetch.content r = Some text
      ∧ occurs ("0000320193" +:+ PyStr.filings_literal) text.
Proof.
  apply (get_CIK_value_is_digits Sample.net_page "AAPL" [] "0000320193").
  reflexivity.
Defined.

(** ** The batch and its lookups *)

Section BatchFacts.

Context {W : Type}.
Implicit Types (fetch : string → M W (option string)) (d : dict).

Lemma sequential_loop_ext fetch1 fetch2 tickers :
  (∀ ticker w, fetch1 ticker w = fetch2 ticker w) →
  ∀ d w, sequential_loop fetch1 tickers d w = sequential_loop fetch2 tickers d w.
Proof.
  intros Hext. induction tickers as [|ticker rest IH]; intros d w; [done|].
  cbn [sequential_loop]. unfold mbind, M_bind. rewrite Hext.
  destruct (fetch2 ticker w) as [[cik|e] w']; [apply IH | done].
Qed.

Lemma run_threads_ext fetch1 fetch2 order :
  (∀ ticker w, fetch1 ticker w = fetch2 ticker w) →
  ∀ d w, run_threads fetch1 order d w = run_threads fetch2 order d w.
Proof.
  intros Hext. induction order as [|[pos ticker] rest IH]; intros d w; [done|].
  cbn [run_threads]. rewrite Hext.
  destruct (fetch2 ticker w) as [[cik|e] w']; apply IH.
Qed.

Lemma get_CIKs_ext fetch1 fetch2 sched tickers flag w :
  (∀ ticker w0, fetch1 ticker w0 = fetch2 ticker w0) →
  get_CIKs fetch1 sched tickers flag w = get_CIKs fetch2 sched tickers flag w.
Proof.
  intros Hext. unfold get_CIKs.
  destruct (iterate tickers) as [items|]; [|done].
  destruct flag as [|[]| | |]; try done; cbn [negb].
  - unfold _get_CIKs_multithread, multithread_with.
    destruct (dispatch 5 sched items); [|done].
    cbn beta. by rewrite (run_threads_ext fetch1 fetch2).
  - by apply sequential_loop_ext.
Qed.

Lemma sequential_loop_app fetch l1 l2 : ∀ d w,
  sequential_loop fetch (l1 ++ l2) d w
  = match sequential_loop fetch l1 d w with
    | (Return d', w') => sequential_loop fetch l2 d' w'
    | (Raise e, w') => (Raise e, w')
    end.
Proof.
  induction l1 as [|ticker rest IH]; intros d w; [done|].
  cbn [app sequential_loop]. unfold mbind, M_bind.
  destruct (fetch ticker w) as [[cik|e] w']; [apply IH | done].
Qed.

(** The batch without threads, for lookups whose outcome depends on the
    ticker alone: it returns as long as the lookups do. *)
Lemma sequential_loop_returns fetch (g : string → outcome (option string)) tickers :
  (∀ ticker w, (fetch ticker w).1 = g ticker) →
  Forall (λ ticker, returns (g ticker)) tickers →
  ∀ d w, returns (sequential_loop fetch tickers d w).1.
Proof.
  intros Hdet. induction 1 as [|ticker rest [cik Hcik] _ IH]; intros d w.
  - by eexists.
  - cbn [sequential_loop]. unfold mbind, M_bind.
    specialize (Hdet ticker w). rewrite Hcik in Hdet.
    destruct (fetch ticker w) as [o w']. simpl in Hdet. subst o. apply IH.
Qed.

(** What the threads store, for lookups whose outcome depends on the ticker
    alone. *)
Lemma run_threads_getitem fetch (g : string → outcome (option string)) order :
  (∀ ticker w, (fetch ticker w).1 = g ticker) →
  ∀ d w k,
    getitem k (run_threads fetch order d w).1
    = if decide (k ∈ order.*2)
      then match g k with
           | Return cik => Some cik
           | Raise _ => getitem k d
           end
      else getitem k d.
Proof.
  intros Hdet. induction order as [|[pos ticker] rest IH]; intros d w k;
    cbn [run_threads].
  - csimpl. destruct (decide (k ∈ [])) as [Hin%elem_of_nil|]; done.
  - specialize (Hdet ticker w). destruct (fetch ticker w) as [o w'].
    simpl in Hdet. subst o. csimpl.
    destruct (g ticker) as [cik|e] eqn:Hg; rewrite IH.
    + rewrite getitem_setitem.
      destruct (decide (k ∈ rest.*2)), (decide (k ∈ ticker :: rest.*2)) as [Hin|Hnin],
        (decide (ticker = k)); subst; try rewrite Hg; try done.
      all: rewrite elem_of_cons in *; intuition congruence.
    + destruct (decide (k ∈ rest.*2)), (decide (k ∈ ticker :: rest.*2)) as [Hin|Hnin];
        try done.
      * rewrite elem_of_cons in Hnin. tauto.
      * apply elem_of_cons in Hin as [->|?]; [by rewrite Hg | done].
Qed.

End BatchFacts.

Lemma store_each_requests (net : Fetch.Net) order : ∀ d log,
  (store_each (get_CIK_answered net) order d log).2 = log ++ requests_of order.
Proof.
  unfold requests_of.
  induction order as [|ticker rest IH]; intros d log; csimpl.
  - by rewrite app_nil_r.
  - rewrite IH. by rewrite <- app_assoc.
Qed.

Lemma requests_of_length order : length (requests_of order) = (2 * length order)%nat.
Proof.
  unfold requests_of. induction order as [|ticker rest IH]; csimpl; [done|].
  rewrite IH. lia.
Qed.

Lemma net_page_answers : answers Sample.net_page.
Proof. intros log url. eexists. split; [reflexivity|]. split; [done | by eexists]. Qed.

Lemma requests_of_perm order1 order2 :
  order1 ≡ₚ order2 → requests_of order1 ≡ₚ requests_of order2.
Proof. unfold requests_of. by intros ->. Qed.

(** X8. Against an endpoint that answers every request, a batch over a list
    of tickers sends two requests for each ticker of the list, repeated
    tickers included: twice as many requests as tickers, to the addresses of
    the tickers. Without threads the requests are sent in the order of the
    list, the two of a ticker one after the other; with threads nothing is
    said of their order. *)
Theorem batch_sends_two_requests_per_ticker (net : Fetch.Net) (sched : Sched)
    (tickers : list string) (b : bool) (log : list string) :
  answers net →
  ∃ output new,
    get_CIKs (Fetch.get_CIK net) sched (PyList tickers) (PyBool b) log
    = (Return output, log ++ new)
    ∧ new ≡ₚ requests_of tickers
    ∧ length new = (2 * length tickers)%nat
    ∧ (b = false → new = requests_of tickers).
Proof.
  intros Hnet.
  rewrite (get_CIKs_ext _ (total (get_CIK_answered net))) by by apply get_CIK_total.
  destruct (get_CIKs_total (get_CIK_answered net) sched tickers b log)
    as (order & Hperm & Hseq & ->).
  eexists _, (requests_of order). rewrite store_each_requests.
  split; [reflexivity|]. split; [by apply requests_of_perm|].
  split; [by rewrite requests_of_length, Hperm|].
  intros Hb. by rewrite (Hseq Hb).
Qed.

Lemma batch_sends_two_requests_per_ticker_witness :
  ∃ output new,
    get_CIKs (Fetch.get_CIK Sample.net_page) Sample.sched
      (PyList ["AAPL"; "MSFT"; "AAPL"]) (PyBool true) []
    = (Return output, [] ++ new)
    ∧ new ≡ₚ requests_of ["AAPL"; "MSFT"; "AAPL"]
    ∧ length new = (2 * 3)%nat
    ∧ (true = false → new = requests_of ["AAPL"; "MSFT"; "AAPL"]).
Proof.
  apply (batch_sends_two_requests_per_ticker Sample.net_page Sample.sched
           ["AAPL"; "MSFT"; "AAPL"] true []).
  apply net_page_answers.
Defined.

(** X9. With threads, for lookups whose outcome depends on the ticker alone:
    the batch returns even when lookups raise. The result holds an entry for
    each ticker of the input whose lookup returned, and nothing for the
    others. *)
Theorem threaded_batch_drops_failed_lookups {W} (fetch : string → M W (option string))
    (g : string → outcome (option string)) (sched : Sched)
    (tickers : list string) (w : W) :
  (∀ ticker w0, (fetch ticker w0).1 = g ticker) →
  ∃ output w',
    get_CIKs fetch sched (PyList tickers) (PyBool true) w = (Return output, w')
    ∧ ∀ k, getitem k output
           = if decide (k ∈ tickers)
             then match g k with
                  | Return cik => Some cik
                  | Raise _ => None
                  end
             else None.
Proof.
  intros Hdet. unfold get_CIKs. cbn [iterate negb].
  unfold _get_CIKs_multithread, multithread_with.
  destruct (dispatch_gated sched tickers) as (evs & -> & _ & Hs).
  cbn [spawned]. rewrite Hs.
  set (order := completion_order _ _ _).
  assert (order.*2 ≡ₚ tickers) as Hperm.
  { subst order. rewrite completion_order_perm by done. by rewrite imap_pair_snd. }
  pose proof (run_threads_getitem fetch g order Hdet [] w) as Hget.
  destruct (run_threads fetch order [] w) as [output w']. cbn [fst] in Hget.
  exists output, w'. split; [done|]. intros k. rewrite (Hget k). cbn [getitem].
  destruct (decide (k ∈ order.*2)) as [Hin|Hnin], (decide (k ∈ tickers)) as [Hin'|Hnin'];
    try done.
  - by rewrite Hperm in Hin.
  - by rewrite <- Hperm in Hin'.
Qed.

Lemma threaded_batch_drops_failed_lookups_witness :
  ∃ output w',
    get_CIKs (Fetch.get_CIK Sample.net_denied) Sample.sched
      (PyList ["AAPL"; "MSFT"]) (PyBool true) [] = (Return output, w')
    ∧ ∀ k, getitem k output
           = if decide (k ∈ ["AAPL"; "MSFT"])
             then match Raise AssertionError with
                  | Return cik => Some cik
                  | Raise _ => None
                  end
             else None.
Proof.
  apply (threaded_batch_drops_failed_lookups (Fetch.get_CIK Sample.net_denied)
           (λ _, Raise AssertionError)).
  reflexivity.
Defined.

(** X10. Without threads, for lookups whose outcome depends on the ticker
    alone: when the lookups of the first tickers return and the next one
    raises, the batch raises that exception, gives no result for the tickers
    done so far, and leaves the world as the failed lookup left it: the
    tickers after it are not looked up. *)
Theorem sequential_batch_stops_at_first_failure {W} (fetch : string → M W (option string))
    (g : string → outcome (option string)) (sched : Sched)
    (done_ : list string) (ticker : string) (e : exn) (w : W) :
  (∀ ticker0 w0, (fetch ticker0 w0).1 = g ticker0) →
  Forall (λ ticker0, returns (g ticker0)) done_ →
  g ticker = Raise e →
  ∃ w',
    get_CIKs fetch sched (PyList (done_ ++ [ticker])) (PyBool false) w = (Raise e, w')
    ∧ ∀ rest,
        get_CIKs fetch sched (PyList (done_ ++ ticker :: rest)) (PyBool false) w
        = (Raise e, w').
Proof.
  intros Hdet Hdone Hticker. unfold get_CIKs. cbn [iterate negb].
  destruct (sequential_loop_returns fetch g done_ Hdet Hdone [] w) as [d Hd].
  destruct (sequential_loop fetch done_ [] w) as [o w1] eqn:Hrun. simpl in Hd. subst o.
  pose proof (Hdet ticker w1) as Hout. rewrite Hticker in Hout.
  destruct (fetch ticker w1) as [o w2] eqn:Hfetch. simpl in Hout. subst o.
  exists w2. split; [|intros rest];
    rewrite sequential_loop_app, Hrun; cbn [sequential_loop];
    unfold mbind, M_bind; by rewrite Hfetch.
Qed.

Lemma sequential_batch_stops_at_first_failure_witness :
  ∃ w',
    get_CIKs (Fetch.get_CIK Sample.net_denied) Sample.sched
      (PyList ([] ++ ["AAPL"])) (PyBool false) [] = (Raise AssertionError, w')
    ∧ ∀ rest,
        get_CIKs (Fetch.get_CIK Sample.net_denied) Sample.sched
          (PyList ([] ++ "AAPL" :: rest)) (PyBool false) []
        = (Raise AssertionError, w').
Proof.
  apply (sequential_batch_stops_at_first_failure (Fetch.get_CIK Sample.net_denied)
           (λ _, Raise AssertionError));
    [reflexivity | constructor | reflexivity].
Defined.

Section Order.

Context {W : Type}.
Implicit Types (f : string → W → option string * W) (d : dict).

Lemma keys_setitem k v d :
  keys (setitem k v d) = if decide (k ∈ keys d) then keys d else keys d ++ [k].
Proof.
  unfold keys. induction d as [|[k0 v0] d IH]; csimpl.
  - destruct (decide (k ∈ [])) as [Hin%elem_of_nil|]; done.
  - destruct (decide (k0 = k)) as [->|Hne]; csimpl.
    + destruct (decide (k ∈ k :: d.*1)) as [|Hnin]; [done|].
      destruct Hnin. by left.
    + rewrite IH.
      destruct (decide (k ∈ d.*1)) as [Hin|Hnin], (decide (k ∈ k0 :: d.*1)) as [Hin'|Hnin'];
        try done.
      * destruct Hnin'. by right.
      * apply elem_of_cons in Hin' as [?|?]; congruence.
Qed.

Lemma store_each_order f order : ∀ d w,
  keys (store_each f order d w).1 = keys d ++ first_occurrences (keys d) order.
Proof.
  induction order as [|ticker rest IH]; intros d w; cbn [store_each first_occurrences].
  - by rewrite app_nil_r.
  - destruct (f ticker w) as [cik w']. rewrite IH, keys_setitem.
    destruct (decide (ticker ∈ keys d)); [done|]. by rewrite <- app_assoc.
Qed.

Lemma store_each_last f order : ∀ d w calls,
  ∃ d' w' new,
    store_each (recorded f) order d (w, calls) = (d', (w', calls ++ new))
    ∧ new.*1 = order
    ∧ ∀ k, getitem k d' = match last_call k new with
                          | Some v => Some v
                          | None => getitem k d
                          end.
Proof.
  induction order as [|ticker rest IH]; intros d w calls; cbn [store_each].
  - exists d, w, []. by rewrite app_nil_r.
  - unfold recorded at 1. destruct (f ticker w) as [cik w'].
    destruct (IH (setitem ticker cik d) w' (calls ++ [(ticker, cik)]))
      as (d' & w'' & new & Hrun & Hnew & Hget).
    exists d', w'', ((ticker, cik) :: new).
    rewrite Hrun. split; [by rewrite <- app_assoc|].
    split; [csimpl; by f_equal|].
    intros k. rewrite Hget, getitem_setitem. cbn [last_call].
    destruct (last_call k new); [done|]. by destruct (decide (ticker = k)).
Qed.

End Order.

(** X11. Without threads, for lookups that return, the entries of the result
    are in the order in which the tickers first occur in the input. *)
Theorem sequential_batch_keeps_first_occurrence_order {W}
    (f : string → W → option string * W) (sched : Sched) (tickers : list string) (w : W) :
  ∃ output w',
    get_CIKs (total f) sched (PyList tickers) (PyBool false) w = (Return output, w')
    ∧ keys output = first_occurrences [] tickers.
Proof.
  destruct (get_CIKs_total f sched tickers false w) as (order & _ & Hseq & ->).
  rewrite (Hseq eq_refl). eexists _, _. split; [reflexivity|].
  by rewrite store_each_order.
Qed.

(** X12. Without threads, for lookups that return: the lookups are called in
    the order of the input, once for each ticker of it, and the entry of a
    ticker holds what the last of the calls for it returned; a ticker without
    a call has no entry. *)
Theorem last_lookup_wins {W} (f : string → W → option string * W)
    (sched : Sched) (tickers : list string) (w : W) :
  ∃ output w' calls,
    get_CIKs (total (recorded f)) sched (PyList tickers) (PyBool false) (w, [])
    = (Return output, (w', calls))
    ∧ calls.*1 = tickers
    ∧ ∀ k, getitem k output = last_call k calls.
Proof.
  destruct (get_CIKs_total (recorded f) sched tickers false (w, []))
    as (order & _ & Hseq & ->).
  rewrite (Hseq eq_refl).
  destruct (store_each_last f tickers [] w []) as (d' & w' & new & Hrun & Hnew & Hget).
  rewrite Hrun. exists d', w', new. split; [done|]. split; [done|].
  intros k. rewrite Hget. by destruct (last_call k new).
Qed.

Lemma elem_of_chars (k : string) (s : string) :
  k ∈ chars s → String.length k = 1%nat.
Proof.
  induction s as [|c s IH]; cbn [chars]; [by intros ?%elem_of_nil|].
  intros [->|Hin]%elem_of_cons; [done | by apply IH].
Qed.

(** X13. A [str] passed as the tickers passes the check of the arguments, and
    the batch looks it up character by character: for lookups that return,
    the keys of the result are the characters of the string, each a string of
    length 1. *)
Theorem str_is_looked_up_by_character {W} (f : string → W → option string * W)
    (sched : Sched) (s : string) (b : bool) (w : W) :
  ∃ output w',
    get_CIKs (total f) sched (PyStr s) (PyBool b) w = (Return output, w')
    ∧ (∀ k, k ∈ keys output ↔ k ∈ chars s)
    ∧ Forall (λ k, String.length k = 1%nat) (keys output).
Proof.
  change (get_CIKs (total f) sched (PyStr s) (PyBool b) w)
    with (get_CIKs (total f) sched (PyList (chars s)) (PyBool b) w).
  destruct (get_CIKs_total f sched (chars s) b w) as (order & Hperm & _ & ->).
  destruct (store_each_keys f order [] w) as [Hnd Hin]; [constructor|].
  eexists _, _. split; [reflexivity|].
  assert (∀ k, k ∈ keys (store_each f order [] w).1 ↔ k ∈ chars s) as Hkeys.
  { intros k. rewrite Hin, Hperm. unfold keys. rewrite elem_of_nil. tauto. }
  split; [done|]. apply Forall_forall. intros k Hk%Hkeys. by eapply elem_of_chars.
Qed.

(** ** Splitting the ticker file *)

Section Split.

Lemma string_length_app (a b : string) :
  String.length (a +:+ b) = (String.length a + String.length b)%nat.
Proof.
  induction a as [|c a IH]; [done|]. rewrite string_app_cons. cbn. by rewrite IH.
Qed.

(** Passing the rest of a separator. *)
Lemma split_from_skip (sep r : string) : ∀ s cur,
  PyStr.split_from sep (r +:+ s) cur (String.length r) = PyStr.split_from sep s cur 0.
Proof.
  induction r as [|c r IH]; intros s cur; [done|].
  rewrite string_app_cons. cbn [String.length PyStr.split_from]. apply IH.
Qed.

Lemma split_from_not_nil (sep s : string) : ∀ cur skip,
  PyStr.split_from sep s cur skip ≠ [].
Proof.
  induction s as [|c s IH]; intros cur skip; cbn [PyStr.split_from]; [done|].
  destruct skip; [|apply IH]. destruct (String.prefix sep (String c s)); [done | apply IH].
Qed.

Lemma concat_cons (sep x : string) (l : list string) :
  l ≠ [] → String.concat sep (x :: l) = x +:+ sep +:+ String.concat sep l.
Proof. by destruct l. Qed.

Lemma split_from_concat (c0 : ascii) (sep' : string) (n : nat) : ∀ s cur,
  (String.length s ≤ n)%nat →
  String.concat (String c0 sep') (PyStr.split_from (String c0 sep') s cur 0) = cur +:+ s.
Proof.
  induction n as [|n IH]; intros s cur Hlen.
  - destruct s; [|cbn in Hlen; lia]. cbn. by rewrite string_app_nil_r.
  - destruct s as [|c s]; [cbn; by rewrite string_app_nil_r|].
    cbn [PyStr.split_from].
    destruct (String.prefix (String c0 sep') (String c s)) eqn:Hpre.
    + apply prefix_app_iff in Hpre as [b Hb].
      rewrite string_app_cons in Hb. injection Hb as -> ->.
      replace (String.length (String c0 sep') - 1)%nat with (String.length sep')
        by (cbn [String.length]; lia).
      rewrite split_from_skip.
      rewrite concat_cons by apply split_from_not_nil.
      rewrite IH.
      * by rewrite <- string_app_cons.
      * cbn [String.length] in Hlen. rewrite string_length_app in Hlen. lia.
    + rewrite IH by (cbn [String.length] in Hlen; lia).
      by rewrite string_app_assoc.
Qed.

(** With the newline as separator. *)
Lemma prefix_newline (c : ascii) (s : string) :
  String.prefix Sample.nl (String c s) = Ascii.eqb c PyStr.newline.
Proof.
  unfold Sample.nl. cbn [String.prefix].
  destruct (ascii_dec PyStr.newline c) as [<-|Hne].
  - rewrite Ascii.eqb_refl. by destruct s.
  - symmetry. apply Ascii.eqb_neq. congruence.
Qed.

Lemma split_from_newline (s : string) : ∀ cur,
  count_newlines cur = 0%nat →
  Forall (λ piece, count_newlines piece = 0%nat) (PyStr.split_from Sample.nl s cur 0)
  ∧ length (PyStr.split_from Sample.nl s cur 0) = S (count_newlines s).
Proof.
  induction s as [|c s IH]; intros cur Hcur; cbn [PyStr.split_from count_newlines].
  - split; [by repeat constructor | done].
  - rewrite prefix_newline. destruct (Ascii.eqb c PyStr.newline) eqn:Hc.
    + destruct (IH EmptyString eq_refl) as [Hall Hlen].
      split; [by constructor | cbn; by rewrite Hlen].
    + destruct (IH (cur +:+ String c EmptyString)) as [Hall Hlen].
      { rewrite count_newlines_app, Hcur. cbn. by rewrite Hc. }
      done.
Qed.

Lemma split_from_trailing_newline (s : string) : ∀ cur,
  PyStr.split_from Sample.nl (s +:+ Sample.nl) cur 0
  = PyStr.split_from Sample.nl s cur 0 ++ [EmptyString].
Proof.
  induction s as [|c s IH]; intros cur; [done|].
  rewrite string_app_cons. cbn [PyStr.split_from].
  rewrite !prefix_newline. destruct (Ascii.eqb c PyStr.newline).
  - cbn. by rewrite IH.
  - apply IH.
Qed.

End Split.

(** X14. Splitting loses nothing: for a separator that is not empty, joining
    the pieces of a text with the separator gives the text back. An empty
    separator raises [ValueError]. *)
Theorem split_then_join (text sep : string) :
  match PyStr.split text sep with
  | Return pieces => sep ≠ EmptyString ∧ String.concat sep pieces = text
  | Raise e => sep = EmptyString ∧ e = ValueError
  end.
Proof.
  destruct sep as [|c0 sep']; cbn [PyStr.split]; [done|].
  split; [done|]. by rewrite (split_from_concat c0 sep' (String.length text)).
Qed.

(** X15. With the newline as separator, the default of the file functions, a
    text with [n] newlines splits into [n + 1] pieces, none of which holds a
    newline. A text that ends with a newline so has an empty last piece: the
    pieces of the text without that newline, and then the empty string. *)
Theorem split_at_newlines (text : string) :
  ∃ pieces,
    PyStr.split text Sample.nl = Return pieces
    ∧ length pieces = S (count_newlines text)
    ∧ Forall (λ piece, count_newlines piece = 0%nat) pieces
    ∧ PyStr.split (text +:+ Sample.nl) Sample.nl = Return (pieces ++ [EmptyString]).
Proof.
  eexists. split; [reflexivity|].
  destruct (split_from_newline text EmptyString eq_refl) as [Hall Hlen].
  split; [done|]. split; [done|].
  cbn [PyStr.split Sample.nl]. f_equal. apply split_from_trailing_newline.
Qed.

(** ** How the file function fails *)




(** X17. When the ticker file and the output file are the same file, the
    tickers are lost before they are read: for a delimiter that is not empty
    and lookups that return, the only lookup is that of the empty ticker, and
    the file ends up with the one record of that ticker. *)
Theorem same_file_loses_the_tickers {W} (f : string → W → option string * W)
    (sched : Sched) (path delim : string) (b : bool) (fs : Files.FS) (w : W) :
  delim ≠ EmptyString →
  ∃ fs',
    Files.get_CIKs_file_to_file (total f) sched path path delim (PyBool b) (fs, w)
    = (Return (), (fs', (f EmptyString w).2))
    ∧ fs' !! path
      = Some ("," +:+ Files.str_of (f EmptyString w).1 +:+ String PyStr.newline EmptyString).
Proof.
  intros Hdelim. unfold Files.get_CIKs_file_to_file. rewrite lookup_insert_eq.
  destruct delim as [|c0 delim']; [done|]. cbn [PyStr.split PyStr.split_from].
  destruct (get_CIKs_total f sched [EmptyString] b w) as (order & Hperm & _ & ->).
  apply Permutation_singleton_r in Hperm as ->. cbn [store_each].
  destruct (f EmptyString w) as [cik w1]. cbn [fst snd setitem Files.write_items].
  eexists. split; [reflexivity|]. by rewrite lookup_insert_eq.
Qed.

Lemma same_file_loses_the_tickers_witness :
  Sample.nl ≠ EmptyString
  ∧ ∃ fs' : Files.FS,
      Files.get_CIKs_file_to_file (total Sample.stub_fetch) Sample.sched
        "tickers.txt" "tickers.txt" Sample.nl (PyBool false) (Sample.files, ())
      = (Return (), (fs', (Sample.stub_fetch EmptyString ()).2))
      ∧ fs' !! "tickers.txt"
        = Some ("," +:+ Files.str_of (Sample.stub_fetch EmptyString ()).1
                    +:+ String PyStr.newline EmptyString).
Proof.
  split; [done|].
  apply (same_file_loses_the_tickers Sample.stub_fetch Sample.sched
           "tickers.txt" Sample.nl false Sample.files ()).
  done.
Defined.

(** ** The lines of the output file *)

Section Values.

Context {W : Type}.
Variable P : string → option string → Prop.

Lemma setitem_Forall k v (d : dict) :
  P k v → Forall (λ kv, P kv.1 kv.2) d → Forall (λ kv, P kv.1 kv.2) (setitem k v d).
Proof.
  intros Hkv. induction 1 as [|[k0 v0] d Hk0 Hd IH]; cbn [setitem].
  - by repeat constructor.
  - destruct (decide (k0 = k)); constructor; done.
Qed.

Lemma store_each_Forall (f : string → W → option string * W) order :
  (∀ ticker w, P ticker (f ticker w).1) →
  ∀ (d : dict) w,
    Forall (λ kv, P kv.1 kv.2) d →
    Forall (λ kv, P kv.1 kv.2) (store_each f order d w).1.
Proof.
  intros Hf. induction order as [|ticker rest IH]; intros d w Hd; cbn [store_each]; [done|].
  specialize (Hf ticker w). destruct (f ticker w) as [cik w'].
  apply IH. by apply setitem_Forall.
Qed.

End Values.

Lemma all_digits_no_newline (s : string) :
  all_digits s = true → count_newlines s = 0%nat.
Proof.
  induction s as [|c s IH]; [done|]. cbn [all_digits count_newlines].
  intros [Hc Hs]%andb_prop. rewrite (IH Hs).
  destruct (Ascii.eqb_spec c PyStr.newline) as [->|_]; done.
Qed.

Lemma get_CIK_answered_no_newline (net : Fetch.Net) ticker log :
  count_newlines (Files.str_of (get_CIK_answered net ticker log).1) = 0%nat.
Proof.
  unfold get_CIK_answered. cbn [fst].
  destruct (net _ _) as [r|]; [|done].
  destruct (Fetch.content r) as [text|]; [|done].
  destruct (Fetch.extract text) as [v|] eqn:Hv; [|done].
  apply extract_Some in Hv as [Hv _]. by apply all_digits_no_newline.
Qed.

(** X18. From file to file with the newline as delimiter, against an endpoint
    that answers every request, with or without threads: the function
    returns, and the output file has as many newlines as the ticker file has
    distinct tickers: each record is one line. *)
Theorem one_line_for_each_distinct_ticker (net : Fetch.Net) (sched : Sched)
    (tickerFilePath outputFilePath : string) (b : bool)
    (fs : Files.FS) (log : list string) (text : string) (tickers : list string) :
  answers net →
  <[outputFilePath := EmptyString]> fs !! tickerFilePath = Some text →
  PyStr.split text Sample.nl = Return tickers →
  ∃ fs' log' written,
    Files.get_CIKs_file_to_file (Fetch.get_CIK net) sched
      tickerFilePath outputFilePath Sample.nl (PyBool b) (fs, log)
    = (Return (), (fs', log'))
    ∧ fs' !! outputFilePath = Some written
    ∧ count_newlines written = length (remove_dups tickers).
Proof.
  intros Hnet Hread Hsplit.
  unfold Files.get_CIKs_file_to_file. rewrite Hread, Hsplit.
  rewrite (get_CIKs_ext _ (total (get_CIK_answered net))) by by apply get_CIK_total.
  destruct (get_CIKs_total (get_CIK_answered net) sched tickers b log)
    as (order & Hperm & _ & ->).
  destruct (store_each_keys (get_CIK_answered net) order [] log) as [Hnd Hin];
    [constructor|].
  pose proof (store_each_Forall
                (λ _ cik, count_newlines (Files.str_of cik) = 0%nat)
                (get_CIK_answered net) order
                (λ ticker w, get_CIK_answered_no_newline net ticker w)
                [] log (Forall_nil_2 _)) as Hvalues.
  set (output := (store_each (get_CIK_answered net) order [] log).1) in *.
  eexists _, _, _. split; [reflexivity|]. split; [apply lookup_insert_eq|].
  assert (∀ k, k ∈ keys output ↔ k ∈ tickers) as Hkeys.
  { intros k. rewrite Hin, Hperm. unfold keys. rewrite elem_of_nil. tauto. }
  assert (Forall (λ piece, count_newlines piece = 0%nat) tickers) as Hfree.
  { cbn [PyStr.split Sample.nl] in Hsplit. injection Hsplit as <-.
    by destruct (split_from_newline text EmptyString eq_refl). }
  rewrite write_items_lines, count_newlines_app. cbn [count_newlines].
  rewrite count_newlines_lines.
  - rewrite <- (length_fmap fst output). apply Permutation_length.
    apply NoDup_Permutation; [done | apply NoDup_remove_dups|].
    intros k. by rewrite elem_of_remove_dups, <- Hkeys.
  - intros ticker cik Hentry. split.
    + rewrite Forall_forall in Hfree. apply Hfree, Hkeys.
      unfold keys. apply list_elem_of_fmap. by exists (ticker, cik).
    + rewrite Forall_forall in Hvalues. apply (Hvalues (ticker, cik) Hentry).
Qed.

Lemma one_line_for_each_distinct_ticker_witness :
  ∃ (fs' : Files.FS) log' written,
    Files.get_CIKs_file_to_file (Fetch.get_CIK Sample.net_page) Sample.sched
      "tickers.txt" "ciks.csv" Sample.nl (PyBool true) (Sample.files, [])
    = (Return (), (fs', log'))
    ∧ fs' !! "ciks.csv" = Some written
    ∧ count_newlines written = length (remove_dups ["AAPL"; "ZZZZ"]).
Proof.
  apply (one_line_for_each_distinct_ticker Sample.net_page Sample.sched
           "tickers.txt" "ciks.csv" true Sample.files []
           ("AAPL" +:+ Sample.nl +:+ "ZZZZ") ["AAPL"; "ZZZZ"]);
    [apply net_page_answers | vm_compute; reflexivity | reflexivity].
Defined.

(** ** Stripping and addresses *)

Section Strip.

Lemma rev_app_app (x y z : string) :
  String.rev_app (x +:+ y) z = String.rev_app y (String.rev_app x z).
Proof.
  revert z. induction x as [|c x IH]; intros z; [done|].
  rewrite string_app_cons. cbn [String.rev_app]. apply IH.
Qed.

Lemma rev_app_rev (x : string) : ∀ z, String.rev_app x z = String.rev x +:+ z.
Proof.
  unfold String.rev. induction x as [|c x IH]; intros z; [done|].
  cbn [String.rev_app]. rewrite (IH (String c z)), (IH (String c EmptyString)).
  by rewrite string_app_assoc.
Qed.

Lemma rev_app_distr (x y : string) :
  String.rev (x +:+ y) = String.rev y +:+ String.rev x.
Proof. unfold String.rev at 1. by rewrite rev_app_app, rev_app_rev. Qed.

Lemma rev_cons c (x : string) :
  String.rev (String c x) = String.rev x +:+ String c EmptyString.
Proof. unfold String.rev at 1. cbn [String.rev_app]. apply rev_app_rev. Qed.

Lemma rev_involutive (x : string) : String.rev (String.rev x) = x.
Proof.
  induction x as [|c x IH]; [done|].
  by rewrite rev_cons, rev_app_distr, IH.
Qed.

Lemma all_space_app (x y : string) :
  all_space (x +:+ y) = all_space x && all_space y.
Proof.
  induction x as [|c x IH]; [done|].
  rewrite string_app_cons. cbn [all_space]. by rewrite IH, andb_assoc.
Qed.

Lemma all_space_rev (x : string) : all_space (String.rev x) = all_space x.
Proof.
  induction x as [|c x IH]; [done|].
  rewrite rev_cons, all_space_app, IH. cbn [all_space].
  by rewrite andb_true_r, andb_comm.
Qed.

Lemma lstrip_space (a x : string) :
  all_space a = true → PyStr.lstrip (a +:+ x) = PyStr.lstrip x.
Proof.
  induction a as [|c a IH]; [done|]. cbn [all_space].
  intros [Hc Ha]%andb_prop. rewrite string_app_cons. cbn [PyStr.lstrip].
  rewrite Hc. by apply IH.
Qed.

Lemma lstrip_no_space (x : string) :
  no_space_at_head x = true → PyStr.lstrip x = x.
Proof.
  destruct x as [|c x]; [done|]. cbn [no_space_at_head PyStr.lstrip].
  by intros ->%negb_true_iff.
Qed.

Lemma lstrip_all_space (a : string) :
  all_space a = true → PyStr.lstrip a = EmptyString.
Proof.
  intros Ha. rewrite <- (string_app_nil_r a). by rewrite lstrip_space.
Qed.

Lemma no_space_at_head_app (x y : string) :
  x ≠ EmptyString → no_space_at_head (x +:+ y) = no_space_at_head x.
Proof. by destruct x. Qed.

Lemma rev_not_empty (x : string) : x ≠ EmptyString → String.rev x ≠ EmptyString.
Proof.
  intros Hx Hrev. apply Hx. by rewrite <- (rev_involutive x), Hrev.
Qed.

End Strip.

(** X19. [strip] removes the whitespace around a ticker and nothing else: for
    a text that neither starts nor ends with whitespace, with whitespace put
    before and after it, [strip] gives the text back. So the address of a
    ticker does not depend on the whitespace around it. *)
Theorem strip_removes_surrounding_whitespace (before ticker after : string) :
  all_space before = true →
  all_space after = true →
  no_space_at_head ticker = true →
  no_space_at_head (String.rev ticker) = true →
  PyStr.strip (before +:+ ticker +:+ after) = ticker
  ∧ Fetch.url_of (before +:+ ticker +:+ after) = Fetch.url_of ticker.
Proof.
  intros Hbefore Hafter Hhead Hlast.
  assert (PyStr.strip (before +:+ ticker +:+ after) = ticker) as Hstrip.
  { unfold PyStr.strip, PyStr.rstrip. rewrite lstrip_space by done.
    destruct (decide (ticker = EmptyString)) as [->|Hne].
    - change (EmptyString +:+ after) with after.
      by rewrite (lstrip_all_space after).
    - rewrite (lstrip_no_space (ticker +:+ after))
        by by rewrite no_space_at_head_app.
      rewrite rev_app_distr, lstrip_space by by rewrite all_space_rev.
      rewrite lstrip_no_space by done. apply rev_involutive. }
  split; [done|].
  assert (PyStr.strip ticker = ticker) as Hid.
  { unfold PyStr.strip, PyStr.rstrip.
    rewrite (lstrip_no_space ticker) by done. rewrite lstrip_no_space by done.
    apply rev_involutive. }
  unfold Fetch.url_of. by rewrite Hstrip, Hid.
Qed.

Lemma strip_removes_surrounding_whitespace_witness :
  PyStr.strip ((" " +:+ Sample.nl) +:+ "BRK B" +:+ (Sample.nl +:+ " ")) = "BRK B"
  ∧ Fetch.url_of ((" " +:+ Sample.nl) +:+ "BRK B" +:+ (Sample.nl +:+ " "))
    = Fetch.url_of "BRK B".
Proof.
  apply (strip_removes_surrounding_whitespace
           (" " +:+ Sample.nl) "BRK B" (Sample.nl +:+ " ")); reflexivity.
Defined.

Section Addresses.

Lemma string_app_inv_r (c : string) : ∀ x y : string, x +:+ c = y +:+ c → x = y.
Proof.
  induction x as [|a x IH]; intros y Heq.
  - destruct y as [|b y]; [done|].
    apply (f_equal String.length) in Heq.
    rewrite !string_length_app in Heq. cbn [String.length] in Heq. lia.
  - destruct y as [|b y].
    + apply (f_equal String.length) in Heq.
      rewrite !string_length_app in Heq. cbn [String.length] in Heq. lia.
    + rewrite !string_app_cons in Heq. injection Heq as -> Heq.
      f_equal. by apply IH.
Qed.

Lemma count_newlines_replace (s : string) :
  count_newlines (PyStr.replace_newline s) = 0%nat.
Proof.
  induction s as [|c s IH]; [done|]. cbn [PyStr.replace_newline].
  destruct (Ascii.eqb c PyStr.newline) eqn:Hc; [done|].
  cbn [count_newlines]. by rewrite Hc, IH.
Qed.

End Addresses.

(** X20. Two tickers have the same address exactly when they are equal once
    stripped and without their newlines; and no address holds a newline. *)
Theorem url_of_collisions (ticker1 ticker2 : string) :
  (Fetch.url_of ticker1 = Fetch.url_of ticker2
   ↔ PyStr.replace_newline (PyStr.strip ticker1)
     = PyStr.replace_newline (PyStr.strip ticker2))
  ∧ count_newlines (Fetch.url_of ticker1) = 0%nat.
Proof.
  unfold Fetch.url_of. split.
  - split; [|by intros ->].
    intros Heq. apply (inj (String.app _)) in Heq.
    by apply string_app_inv_r in Heq.
  - by rewrite !count_newlines_app, count_newlines_replace.
Qed.

(** ** The timers of a batch *)

Lemma trace_count_waits e p c now t evs :
  trace_from e p c now t evs →
  (c ≤ 5)%nat →
  count_waits evs = ((c + length (spawned evs) - 1) / 5)%nat
  ∧ count_starts evs = count_waits evs.
Proof.
  induction 1 as [|p c now t ticker0 evs Hc Htr IH|p now t ticker0 evs now' Htr IH];
    intros Hle; cbn [count_waits count_starts spawned length].
  - split; [|done]. rewrite Nat.div_small; lia.
  - destruct (IH ltac:(lia)) as [Hw Hs]. split; [|done].
    rewrite Hw. f_equal. lia.
  - destruct (IH ltac:(lia)) as [Hw Hs]. rewrite Hs, Hw. split; [|done].
    replace (5 + S (length (spawned evs)) - 1)%nat
      with (1 * 5 + (1 + length (spawned evs) - 1))%nat by lia.
    rewrite Nat.div_add_l by lia. lia.
Qed.

(** X21. For a batch of [n] tickers, the loop of the threaded batch calls
    [timer.wait()] once for every 5 tickers after the first 5, which is
    [(n - 1) / 5] times, and [timer.start(1)] once more than that: each call
    starts a timer thread. *)
Theorem timers_of_a_batch (sched : Sched) (tickers : list string) (evs : list event) :
  dispatch 5 sched tickers = Return evs →
  count_waits evs = ((length tickers - 1) / 5)%nat
  ∧ count_starts evs = S ((length tickers - 1) / 5).
Proof.
  intros (evs' & -> & Htr & Hs)%dispatch_events.
  destruct (trace_count_waits _ _ _ _ _ _ Htr ltac:(lia)) as [Hw Hst].
  rewrite Hs, length_imap in Hw. cbn [count_waits count_starts].
  rewrite Hst, Hw. done.
Qed.

Lemma timers_of_a_batch_witness :
  count_waits
    [EStart 0; ESpawn 0 "A" 0; ESpawn 1 "B" 10; ESpawn 2 "C" 20; ESpawn 3 "D" 30;
     ESpawn 4 "E" 40; EWait 50 1000; EStart 1000; ESpawn 5 "F" 1000]
  = ((length ["A"; "B"; "C"; "D"; "E"; "F"] - 1) / 5)%nat
  ∧ count_starts
      [EStart 0; ESpawn 0 "A" 0; ESpawn 1 "B" 10; ESpawn 2 "C" 20; ESpawn 3 "D" 30;
       ESpawn 4 "E" 40; EWait 50 1000; EStart 1000; ESpawn 5 "F" 1000]
    = S ((length ["A"; "B"; "C"; "D"; "E"; "F"] - 1) / 5).
Proof.
  apply (timers_of_a_batch Sample.sched ["A"; "B"; "C"; "D"; "E"; "F"]).
  reflexivity.
Defined.
